(** * Bank-account chaincode (asset-transfer-basic/chaincode-go/chaincode/smartcontract.go)

    A shallow embedding of the [SmartContract] methods and of the two
    collaborators they call: the chaincode stub (the world state, reached
    through [ctx.GetStub()]) and [encoding/json].

    - [float64] is Rocq's primitive binary64 [float]; [+], [-] and [<] are
      the IEEE 754 operations Go performs.
    - A Go [error] is kept as the value the code builds: [fmt.Errorf] yields a
      message, the stub and [encoding/json] yield errors of their own.
    - Every method runs in the monad [M]: it threads the stub and returns
      [Ok v] or [Err e] the way the Go method returns [(v, nil)] or
      [(_, err)].  A write that happened before an error stays in the stub:
      whether it is committed is decided by the caller of the chaincode. *)

From Stdlib Require Import Floats QArith.
From stdpp Require Import gmap strings list fin_maps.

(** ** Data model *)

(** [type Account struct { ID string; Owner string; Balance float64 }] *)
Record Account : Type := mkAccount {
  ID : string;
  Owner : string;
  Balance : float;
}.

(** [account.Balance = b] on a struct reached through a pointer. *)
Definition set_Balance (account : Account) (b : float) : Account :=
  {| ID := ID account; Owner := Owner account; Balance := b |}.

(** ** Errors *)

(** The errors the methods can return.  [Errorf] is the result of
    [fmt.Errorf]: nothing but its message.  [StubError] is an error the stub
    returned and the method passed on unchanged.  The two [encoding/json]
    errors are [*json.UnsupportedValueError] (from [Marshal]; [Str] is the
    offending float as [strconv.FormatFloat] prints it) and the error
    [Unmarshal] gives for bytes that are not an Account. *)
Inductive error : Type :=
| Errorf (msg : string)
| StubError (msg : string)
| UnsupportedValueError (Str : string)
| UnmarshalError (msg : string).

(** The spec's names for the messages the contract formats. *)
Definition AlreadyExistsError (id : string) : error :=
  Errorf ("the account " +:+ id +:+ " already exists").
Definition NotFoundError (id : string) : error :=
  Errorf ("the account " +:+ id +:+ " does not exist").
Definition InsufficientFundsError (fromID : string) : error :=
  Errorf ("insufficient funds in the account " +:+ fromID).
Definition ReadFailedError (cause : string) : error :=
  Errorf ("failed to read from world state: " +:+ cause).
Definition PutFailedError (cause : string) : error :=
  Errorf ("failed to put to world state: " +:+ cause).

Inductive result (A : Type) : Type :=
| Ok (a : A)
| Err (e : error).
Arguments Ok {A} a.
Arguments Err {A} e.

Definition is_Ok {A : Type} (r : result A) : bool :=
  match r with Ok _ => true | Err _ => false end.

(** ** encoding/json *)

(** Modelled from the spec: [json.Marshal] and [json.Unmarshal] of
    [encoding/json], which is not under src/ ("each Account is encoded as a
    self-describing structured record ...; decoding must reject malformed
    bytes").  The contract looks at a stored value in two ways only: it
    compares it with [nil] and it hands it to [json.Unmarshal].  A byte string
    is therefore identified with what [json.Unmarshal] makes of it: the
    Account it decodes to, or the fact that it is rejected.  Identifiers and
    owners are text (valid UTF-8), which [Marshal] writes and [Unmarshal]
    reads back unchanged. *)
Inductive bytes : Type :=
| Encoded (account : Account)
| Malformed (msg : string).

(** JSON has no notation for NaN and the infinities. *)
Definition unsupported (f : float) : bool :=
  (PrimFloat.is_nan f || PrimFloat.is_infinity f)%bool.

(** [strconv.FormatFloat(f, 'g', -1, 64)] on the values [Marshal] refuses. *)
Definition FormatFloat_unsupported (f : float) : string :=
  if PrimFloat.is_nan f then "NaN"
  else if PrimFloat.get_sign f then "-Inf" else "+Inf".

(** Modelled from the spec: [json.Marshal(account)], which fails with an
    "EncodingError if a record cannot be serialized".  The records
    [encoding/json] cannot serialize are those with a NaN or infinite number,
    for which it returns an [UnsupportedValueError]; any other record is
    encoded. *)
Definition json_Marshal (account : Account) : result bytes :=
  if unsupported (Balance account)
  then Err (UnsupportedValueError (FormatFloat_unsupported (Balance account)))
  else Ok (Encoded account).

(** Modelled from the spec: [json.Unmarshal(data, &account)] on a fresh
    [var account Account], which returns the record encoded or fails with a
    "DecodingError if stored bytes do not parse as an Account". *)
Definition json_Unmarshal (data : bytes) : result Account :=
  match data with
  | Encoded account => Ok account
  | Malformed msg => Err (UnmarshalError msg)
  end.

(** ** The chaincode stub *)

(** One [PutState] or [DelState] call the stub accepted. *)
Inductive write : Type :=
| Put (key : string) (value : bytes)
| Del (key : string).

(** Modelled from the spec: the stub behind [ctx.GetStub()], which is not
    under src/; it is the spec's store collaborator, "get(key) -> bytes |
    absent", "put(key, bytes) -> ok", "delete(key) -> ok" and "scan", each of
    which "fails on transport/storage error" only.
    - [World]: the key-value state; a key without a binding reads as [nil].
    - [Writes]: the writes accepted so far, the latest first.
    - [Faults]: the failures to come.  Each call of the stub takes the head of
      this script: [Some msg] makes the call fail with that message and do
      nothing else, [None] (or an exhausted script) lets it through.
    No method reads a key after it has written it, so it makes no difference
    whether a read would see the writes of its own invocation. *)
Record ChaincodeStub : Type := mkStub {
  World : gmap string bytes;
  Writes : list write;
  Faults : list (option string);
}.

(** The stub never fails from this state on. *)
Definition available (stub : ChaincodeStub) : Prop :=
  Forall (λ f, f = None) (Faults stub).

(** The stub lets its next call through. *)
Definition serves_next (stub : ChaincodeStub) : Prop :=
  match Faults stub with
  | Some _ :: _ => False
  | _ => True
  end.

(** Methods: stub in, result and stub out. *)
Definition M (A : Type) : Type := ChaincodeStub → result A * ChaincodeStub.

Definition ret {A : Type} (a : A) : M A := λ stub, (Ok a, stub).

Definition throw {A : Type} (e : error) : M A := λ stub, (Err e, stub).

Definition bind {A B : Type} (m : M A) (k : A → M B) : M B :=
  λ stub,
    match m stub with
    | (Ok a, stub') => k a stub'
    | (Err e, stub') => (Err e, stub')
    end.

(** [if err != nil { return ..., f(err) }] around a call. *)
Definition or_else {A : Type} (m : M A) (f : error → error) : M A :=
  λ stub,
    match m stub with
    | (Ok a, stub') => (Ok a, stub')
    | (Err e, stub') => (Err (f e), stub')
    end.

(** A pure call that returns [(v, err)]. *)
Definition lift {A : Type} (r : result A) : M A := λ stub, (r, stub).

Declare Scope go_scope.
Delimit Scope go_scope with go.
Notation "x <- m ;; k" := (bind m (λ x, k))
  (at level 100, m at next level, right associativity) : go_scope.
Notation "m ;;; k" := (bind m (λ _, k))
  (at level 100, right associativity) : go_scope.
Open Scope go_scope.

(** The message [%v] prints for an error of the stub. *)
Definition Error (e : error) : string :=
  match e with
  | Errorf msg => msg
  | StubError msg => msg
  | UnsupportedValueError Str => "json: unsupported value: " +:+ Str
  | UnmarshalError msg => msg
  end.

(** Take the next entry of the fault script. *)
Definition next_fault (stub : ChaincodeStub) : option string * ChaincodeStub :=
  match Faults stub with
  | [] => (None, stub)
  | f :: rest =>
      (f, {| World := World stub; Writes := Writes stub; Faults := rest |})
  end.

(** A stub call: fail as the script says, or perform [action]. *)
Definition stub_call {A : Type} (action : ChaincodeStub → A * ChaincodeStub) : M A :=
  λ stub,
    match next_fault stub with
    | (Some msg, stub') => (Err (StubError msg), stub')
    | (None, stub') => let '(a, stub'') := action stub' in (Ok a, stub'')
    end.

(** [stub.GetState(key)]: the value, or [nil] ([None]) for a missing key. *)
Definition GetState (key : string) : M (option bytes) :=
  stub_call (λ stub, (World stub !! key, stub)).

(** [stub.PutState(key, value)]. *)
Definition PutState (key : string) (value : bytes) : M unit :=
  stub_call (λ stub,
    (tt, {| World := <[key := value]> (World stub);
            Writes := Put key value :: Writes stub;
            Faults := Faults stub |})).

(** [stub.DelState(key)]. *)
Definition DelState (key : string) : M unit :=
  stub_call (λ stub,
    (tt, {| World := delete key (World stub);
            Writes := Del key :: Writes stub;
            Faults := Faults stub |})).

(** The keys of a range query: from [startKey] (inclusive) up to [endKey]
    (exclusive), an empty [endKey] meaning no upper bound. *)
Definition in_range (startKey endKey key : string) : bool :=
  (String.leb startKey key
   && (String.eqb endKey "" || String.ltb key endKey))%bool.

(** [queryResponse.Key], [queryResponse.Value]. *)
Record KV : Type := mkKV { Key : string; Value : bytes }.

(** A [StateQueryIteratorInterface]: the entries still to be delivered, in
    the order the store iterates its keys. *)
Definition StateQueryIterator : Type := list KV.

(** [stub.GetStateByRange(startKey, endKey)]. *)
Definition GetStateByRange (startKey endKey : string) : M StateQueryIterator :=
  stub_call (λ stub,
    (map (λ kv, mkKV kv.1 kv.2)
       (filter (λ kv, in_range startKey endKey kv.1 = true)
          (map_to_list (World stub))),
     stub)).

(** [resultsIterator.Next()] on an iterator whose head is [queryResponse]. *)
Definition Next (queryResponse : KV) : M KV :=
  stub_call (λ stub, (queryResponse, stub)).

(** [value != nil] on what [GetState] returned. *)
Definition not_nil (value : option bytes) : bool :=
  match value with Some _ => true | None => false end.

(** ** The contract *)

(** The seed accounts of [InitLedger]. *)
Definition seed_accounts : list Account :=
  [ mkAccount "account1" "Tomoko" 1000%float;
    mkAccount "account2" "Brad" 2000%float;
    mkAccount "account3" "Jin Soo" 3000%float;
    mkAccount "account4" "Max" 4000%float;
    mkAccount "account5" "Adriana" 5000%float;
    mkAccount "account6" "Michel" 6000%float ].

(** The loop [for _, account := range accounts] of [InitLedger]. *)
Fixpoint put_accounts (accounts : list Account) : M unit :=
  match accounts with
  | [] => ret tt
  | account :: rest =>
      accountJSON <- lift (json_Marshal account) ;;
      or_else (PutState (ID account) accountJSON)
              (λ err, PutFailedError (Error err)) ;;;
      put_accounts rest
  end.

(** [InitLedger] adds a base set of accounts to the ledger. *)
Definition InitLedger : M unit := put_accounts seed_accounts.

(** [AccountExists] returns true when an account with the given ID exists in
    the world state. *)
Definition AccountExists (id : string) : M bool :=
  accountJSON <- or_else (GetState id) (λ err, ReadFailedError (Error err)) ;;
  ret (not_nil accountJSON).

(** [CreateAccount] creates a new bank account with the given details. *)
Definition CreateAccount (id owner : string) (balance : float) : M unit :=
  exists_ <- AccountExists id ;;
  if exists_ : bool then throw (AlreadyExistsError id)
  else
    let account := {| ID := id; Owner := owner; Balance := balance |} in
    accountJSON <- lift (json_Marshal account) ;;
    PutState id accountJSON.

(** [ReadAccount] returns the account stored in the world state with the
    given id. *)
Definition ReadAccount (id : string) : M Account :=
  accountJSON <- or_else (GetState id) (λ err, ReadFailedError (Error err)) ;;
  match accountJSON with
  | None => throw (NotFoundError id)
  | Some data => lift (json_Unmarshal data)
  end.

(** [UpdateAccount] updates an existing account in the world state with the
    provided parameters. *)
Definition UpdateAccount (id owner : string) (balance : float) : M unit :=
  exists_ <- AccountExists id ;;
  if negb exists_ then throw (NotFoundError id)
  else
    let account := {| ID := id; Owner := owner; Balance := balance |} in
    accountJSON <- lift (json_Marshal account) ;;
    PutState id accountJSON.

(** [DeleteAccount] deletes the given account from the world state. *)
Definition DeleteAccount (id : string) : M unit :=
  exists_ <- AccountExists id ;;
  if negb exists_ then throw (NotFoundError id)
  else DelState id.

(** The loop [for resultsIterator.HasNext()] of [GetAllAccounts]: [HasNext]
    is true as long as entries are left, and [accounts] is the slice built so
    far.  Each turn declares a fresh [account], so the pointers appended are
    to distinct records. *)
Fixpoint collect (resultsIterator : StateQueryIterator) (accounts : list Account)
  : M (list Account) :=
  match resultsIterator with
  | [] => ret accounts
  | entry :: rest =>
      queryResponse <- Next entry ;;
      account <- lift (json_Unmarshal (Value queryResponse)) ;;
      collect rest (accounts ++ [account])
  end.

(** [GetAllAccounts] returns all accounts found in the world state.  The
    deferred [Close] releases the iterator and has no effect on the state. *)
Definition GetAllAccounts : M (list Account) :=
  resultsIterator <- GetStateByRange "" "" ;;
  collect resultsIterator [].

(** [TransferFunds] transfers funds from one account to another.  The two
    [ReadAccount] calls return pointers to two distinct records, also when
    [fromID] and [toID] are the same key. *)
Definition TransferFunds (fromID toID : string) (amount : float) : M unit :=
  fromAccount <- ReadAccount fromID ;;
  toAccount <- ReadAccount toID ;;
  if (Balance fromAccount <? amount)%float
  then throw (InsufficientFundsError fromID)
  else
    let fromAccount := set_Balance fromAccount (Balance fromAccount - amount)%float in
    let toAccount := set_Balance toAccount (Balance toAccount + amount)%float in
    fromAccountJSON <- lift (json_Marshal fromAccount) ;;
    PutState fromID fromAccountJSON ;;;
    toAccountJSON <- lift (json_Marshal toAccount) ;;
    PutState toID toAccountJSON.

(** ** Histories *)

(** The transactions that can change the world state. *)
Inductive invocation : Type :=
| InvokeInitLedger
| InvokeCreateAccount (id owner : string) (balance : float)
| InvokeUpdateAccount (id owner : string) (balance : float)
| InvokeDeleteAccount (id : string)
| InvokeTransferFunds (fromID toID : string) (amount : float).

Definition invoke (i : invocation) : M unit :=
  match i with
  | InvokeInitLedger => InitLedger
  | InvokeCreateAccount id owner balance => CreateAccount id owner balance
  | InvokeUpdateAccount id owner balance => UpdateAccount id owner balance
  | InvokeDeleteAccount id => DeleteAccount id
  | InvokeTransferFunds fromID toID amount => TransferFunds fromID toID amount
  end.

(** Run a history.  A failed invocation keeps the writes it made before it
    failed; a caller that discards them instead reaches only states that are
    reached here by the history without that invocation. *)
Fixpoint run (history : list invocation) (stub : ChaincodeStub) : ChaincodeStub :=
  match history with
  | [] => stub
  | i :: rest => run rest (invoke i stub).2
  end.

(** A fresh ledger: no keys, no writes yet, any fault script. *)
Definition genesis (faults : list (option string)) : ChaincodeStub :=
  {| World := ∅; Writes := []; Faults := faults |}.

(** The store holds [account] under [id]. *)
Definition holds (stub : ChaincodeStub) (id : string) (account : Account) : Prop :=
  World stub !! id = Some (Encoded account).

(** The stub after one call that was let through or failed: the fault script
    has advanced, nothing else has changed. *)
Definition served (stub : ChaincodeStub) : ChaincodeStub := (next_fault stub).2.

(** The state after an accepted [PutState key value]. *)
Definition put (key : string) (value : bytes) (stub : ChaincodeStub) : ChaincodeStub :=
  {| World := <[key := value]> (World stub);
     Writes := Put key value :: Writes stub;
     Faults := Faults stub |}.

(** Weakest precondition of a method for a postcondition on its outcome. *)
Definition wp {A : Type} (m : M A) (Q : result A → ChaincodeStub → Prop)
  (stub : ChaincodeStub) : Prop :=
  Q (m stub).1 (m stub).2.

(** ** Invariants of the world state *)

(** [value] decodes to an Account whose ID is [key], and [key] is one of the
    keys [P] allows. *)
Definition keyed (P : string → Prop) (key : string) (value : bytes) : Prop :=
  P key ∧ ∃ account, json_Unmarshal value = Ok account ∧ ID account = key.

(** Every binding of the world state is [keyed]. *)
Definition well_keyed (P : string → Prop) (world : gmap string bytes) : Prop :=
  ∀ key value, world !! key = Some value → keyed P key value.

(** A write stores a [keyed] value; a deletion stores nothing. *)
Definition write_keyed (P : string → Prop) (w : write) : Prop :=
  match w with
  | Put key value => keyed P key value
  | Del _ => True
  end.

(** The world state and every write made so far are [keyed]. *)
Definition ledger_invariant (P : string → Prop) (stub : ChaincodeStub) : Prop :=
  well_keyed P (World stub) ∧ Forall (write_keyed P) (Writes stub).

(** An invocation that creates accounts only under keys [P] allows. *)
Definition creates_within (P : string → Prop) (i : invocation) : Prop :=
  match i with
  | InvokeCreateAccount id _ _ => P id
  | _ => True
  end.

(** A non-empty identifier. *)
Definition non_empty (id : string) : Prop := id ≠ "".


(** [value] decodes to an Account with a non-empty ID. *)
Definition has_non_empty_ID (value : bytes) : Prop :=
  ∃ account, json_Unmarshal value = Ok account ∧ ID account ≠ "".

(** A write that stores a value stores one with a non-empty ID. *)
Definition writes_non_empty_ID (w : write) : Prop :=
  match w with
  | Put _ value => has_non_empty_ID value
  | Del _ => True
  end.

(** ** Balances as exact numbers *)

(** The rational number a finite [float64] stands for. *)
Definition real_value (f : float) : option Q :=
  match Prim2SF f with
  | S754_zero _ => Some 0%Q
  | S754_finite s m e =>
      Some (inject_Z (if s then Z.neg m else Z.pos m) * Qpower 2 e)%Q
  | S754_infinity _ | S754_nan => None
  end.

(** [z] is [op x y] computed without rounding. *)
Definition exactly (op : Q → Q → Q) (x y z : float) : Prop :=
  match real_value x, real_value y, real_value z with
  | Some qx, Some qy, Some qz => (qz == op qx qy)%Q
  | _, _, _ => False
  end.

(** The balance stored under [id]. *)
Definition stored_balance (stub : ChaincodeStub) (id : string) : option float :=
  match World stub !! id with
  | Some (Encoded account) => Some (Balance account)
  | _ => None
  end.

(** The sum of the balances stored under two keys, in [float64] arithmetic
    and as an exact number. *)
Definition pair_sum (stub : ChaincodeStub) (id1 id2 : string) : option float :=
  match stored_balance stub id1, stored_balance stub id2 with
  | Some b1, Some b2 => Some (b1 + b2)%float
  | _, _ => None
  end.

Definition pair_total (stub : ChaincodeStub) (id1 id2 : string) : option Q :=
  match stored_balance stub id1, stored_balance stub id2 with
  | Some b1, Some b2 =>
      match real_value b1, real_value b2 with
      | Some q1, Some q2 => Some (q1 + q2)%Q
      | _, _ => None
      end
  | _, _ => None
  end.

(** ** Concrete ledgers *)

(** The ledger after [InitLedger] on a stub that serves every call. *)
Definition seeded : ChaincodeStub := run [InvokeInitLedger] (genesis []).

(** The seeded ledger with one more key whose value is not an Account. *)
Definition probe_stub : ChaincodeStub :=
  {| World := <["broken" := Malformed "unexpected end of JSON input"]> (World seeded);
     Writes := [];
     Faults := [] |}.

(** The largest finite [float64], [math.MaxFloat64]. *)
Definition MaxFloat64 : float := 0x1.fffffffffffffp+1023%float.

(** Two accounts, the first with the largest finite balance. *)
Definition overflow_stub : ChaincodeStub :=
  run [ InvokeCreateAccount "a" "x" MaxFloat64;
        InvokeCreateAccount "b" "y" 0%float ] (genesis []).

(** Two accounts whose balances are integers, the second one 2^53. *)
Definition rounding_stub : ChaincodeStub :=
  run [ InvokeCreateAccount "a" "x" 3%float;
        InvokeCreateAccount "b" "y" 9007199254740992%float ] (genesis []).

(** A short history on a stub that serves every call. *)
Definition sample_history : list invocation :=
  [ InvokeInitLedger;
    InvokeTransferFunds "account1" "account2" 300%float;
    InvokeCreateAccount "account7" "Eve" 7000%float;
    InvokeDeleteAccount "account3";
    InvokeUpdateAccount "account2" "Bradley" 50%float ].

(** ** Further ledgers and invariants *)

(** The world state after [PutState] of each of [accounts], in order, under
    its ID. *)
Definition store_all (accounts : list Account) (world : gmap string bytes)
  : gmap string bytes :=
  foldl (λ w account, <[ID account := Encoded account]> w) world accounts.

(** The writes that storing each of [accounts] in order adds to the log, the
    latest first. *)
Definition puts_of (accounts : list Account) : list write :=
  rev (map (λ account, Put (ID account) (Encoded account)) accounts).

(** Every value of the world state decodes to an Account whose balance is a
    finite number. *)
Definition finite_balances (world : gmap string bytes) : Prop :=
  ∀ key value,
    world !! key = Some value →
    ∃ account, json_Unmarshal value = Ok account
               ∧ unsupported (Balance account) = false.

(** Two accounts that both hold the largest finite balance. *)
Definition credit_overflow_stub : ChaincodeStub :=
  run [ InvokeCreateAccount "a" "x" MaxFloat64;
        InvokeCreateAccount "b" "y" MaxFloat64 ] (genesis []).

(** * Proofs *)

(** Open the existentials and conjunctions among the hypotheses and use the
    equations found. *)
Ltac break :=
  repeat match goal with
         | H : ∃ _, _ |- _ => destruct H
         | H : _ ∧ _ |- _ => destruct H
         end;
  simplify_eq.

(** ** The stub *)

Lemma World_served stub : World (served stub) = World stub.
Proof. unfold served, next_fault. by destruct (Faults stub). Qed.

Lemma Writes_served stub : Writes (served stub) = Writes stub.
Proof. unfold served, next_fault. by destruct (Faults stub). Qed.

Lemma available_served stub : available stub → available (served stub).
Proof.
  unfold available, served, next_fault.
  destruct stub as [w ws [|f rest]]; simpl; [done|].
  apply Forall_cons_1.
Qed.

Lemma next_fault_available stub :
  available stub → next_fault stub = (None, served stub).
Proof.
  unfold available, served, next_fault.
  destruct stub as [w ws [|f rest]]; simpl; [done|].
  intros [-> _]%Forall_cons_1. done.
Qed.

Lemma stub_call_available {A} (action : ChaincodeStub → A * ChaincodeStub) stub :
  available stub →
  stub_call action stub = ((Ok (action (served stub)).1), (action (served stub)).2).
Proof.
  intros Hav. unfold stub_call. rewrite next_fault_available by done.
  by destruct (action (served stub)).
Qed.

Lemma GetState_available key stub :
  available stub → GetState key stub = (Ok (World stub !! key), served stub).
Proof.
  intros Hav. unfold GetState. rewrite stub_call_available by done.
  simpl. by rewrite World_served.
Qed.

Lemma PutState_available key value stub :
  available stub → PutState key value stub = (Ok tt, put key value (served stub)).
Proof. intros Hav. unfold PutState. by rewrite stub_call_available. Qed.

Lemma available_put key value stub : available stub → available (put key value stub).
Proof. done. Qed.

Lemma World_put key value stub :
  World (put key value (served stub)) = <[key := value]> (World stub).
Proof. simpl. by rewrite World_served. Qed.

Lemma Writes_put key value stub :
  Writes (put key value (served stub)) = Put key value :: Writes stub.
Proof. simpl. by rewrite Writes_served. Qed.

(** Whatever the fault script says, a stub call fails without touching the
    store or performs its action on the store as it was. *)
Lemma stub_call_cases {A} (action : ChaincodeStub → A * ChaincodeStub) stub :
  (∃ msg, (next_fault stub).1 = Some msg
          ∧ stub_call action stub = (Err (StubError msg), served stub))
  ∨ ((next_fault stub).1 = None
     ∧ stub_call action stub
       = (Ok (action (served stub)).1, (action (served stub)).2)).
Proof.
  unfold stub_call, served.
  destruct (next_fault stub) as [[msg|] stub']; simpl.
  - left. by exists msg.
  - right. split; [done|]. by destruct (action stub').
Qed.

(** ** Rules of the weakest precondition *)

Lemma wp_ret {A} (a : A) Q stub : Q (Ok a) stub → wp (ret a) Q stub.
Proof. done. Qed.

Lemma wp_throw {A} e (Q : result A → ChaincodeStub → Prop) stub :
  Q (Err e) stub → wp (throw e) Q stub.
Proof. done. Qed.

Lemma wp_lift {A} (r : result A) Q stub : Q r stub → wp (lift r) Q stub.
Proof. done. Qed.

Lemma wp_bind {A B} (m : M A) (k : A → M B) Q stub :
  wp m (λ r stub', match r with
                   | Ok a => wp (k a) Q stub'
                   | Err e => Q (Err e) stub'
                   end) stub →
  wp (bind m k) Q stub.
Proof. unfold wp, bind. by destruct (m stub) as [[a|e] stub']. Qed.

Lemma wp_or_else {A} (m : M A) f Q stub :
  wp m (λ r stub', match r with
                   | Ok a => Q (Ok a) stub'
                   | Err e => Q (Err (f e)) stub'
                   end) stub →
  wp (or_else m f) Q stub.
Proof. unfold wp, or_else. by destruct (m stub) as [[a|e] stub']. Qed.

Lemma wp_GetState key Q stub :
  (∀ msg, Q (Err (StubError msg)) (served stub)) →
  Q (Ok (World stub !! key)) (served stub) →
  wp (GetState key) Q stub.
Proof.
  intros Hfail Hok. unfold wp, GetState.
  destruct (stub_call_cases (λ stub, (World stub !! key, stub)) stub)
    as [(msg & _ & ->)|[_ ->]]; simpl; [done|].
  by rewrite World_served.
Qed.

Lemma wp_PutState key value Q stub :
  (∀ msg, Q (Err (StubError msg)) (served stub)) →
  Q (Ok tt) (put key value (served stub)) →
  wp (PutState key value) Q stub.
Proof.
  intros Hfail Hok. unfold wp, PutState.
  destruct (stub_call_cases (λ stub,
       (tt, {| World := <[key := value]> (World stub);
               Writes := Put key value :: Writes stub;
               Faults := Faults stub |})) stub)
    as [(msg & _ & ->)|[_ ->]]; simpl; [apply Hfail | exact Hok].
Qed.

Lemma wp_DelState key Q stub :
  (∀ msg, Q (Err (StubError msg)) (served stub)) →
  Q (Ok tt) {| World := delete key (World stub);
               Writes := Del key :: Writes stub;
               Faults := Faults (served stub) |} →
  wp (DelState key) Q stub.
Proof.
  intros Hfail Hok. unfold wp, DelState.
  destruct (stub_call_cases (λ stub,
       (tt, {| World := delete key (World stub);
               Writes := Del key :: Writes stub;
               Faults := Faults stub |})) stub)
    as [(msg & _ & ->)|[_ ->]]; simpl; [done|].
  by rewrite World_served, Writes_served.
Qed.

Lemma wp_GetStateByRange startKey endKey Q stub :
  (∀ msg, Q (Err (StubError msg)) (served stub)) →
  Q (Ok (map (λ kv, mkKV kv.1 kv.2)
           (filter (λ kv, in_range startKey endKey kv.1 = true)
              (map_to_list (World stub)))))
    (served stub) →
  wp (GetStateByRange startKey endKey) Q stub.
Proof.
  intros Hfail Hok. unfold wp, GetStateByRange.
  destruct (stub_call_cases (λ stub,
       (map (λ kv, mkKV kv.1 kv.2)
          (filter (λ kv, in_range startKey endKey kv.1 = true)
             (map_to_list (World stub))), stub)) stub)
    as [(msg & _ & ->)|[_ ->]]; simpl; [done|].
  by rewrite World_served.
Qed.

Lemma wp_Next entry Q stub :
  (∀ msg, Q (Err (StubError msg)) (served stub)) →
  Q (Ok entry) (served stub) →
  wp (Next entry) Q stub.
Proof.
  intros Hfail Hok. unfold wp, Next.
  destruct (stub_call_cases (λ stub, (entry, stub)) stub)
    as [(msg & _ & ->)|[_ ->]]; simpl; [apply Hfail | exact Hok].
Qed.

Lemma wp_mono {A} (m : M A) (Q Q' : result A → ChaincodeStub → Prop) stub :
  wp m Q stub → (∀ r stub', Q r stub' → Q' r stub') → wp m Q' stub.
Proof. unfold wp. auto. Qed.

(** ** Symbolic execution of a method *)

Ltac wp_step :=
  lazymatch goal with
  | |- wp (bind _ _) _ _ => apply wp_bind
  | |- wp (or_else _ _) _ _ => apply wp_or_else
  | |- wp (GetState _) _ _ => apply wp_GetState; [intros ?|]
  | |- wp (PutState _ _) _ _ => apply wp_PutState; [intros ?|]
  | |- wp (DelState _) _ _ => apply wp_DelState; [intros ?|]
  | |- wp (GetStateByRange _ _) _ _ => apply wp_GetStateByRange; [intros ?|]
  | |- wp (Next _) _ _ => apply wp_Next; [intros ?|]
  | |- wp (ret _) _ _ => apply wp_ret
  | |- wp (throw _) _ _ => apply wp_throw
  | |- wp (lift _) _ _ => apply wp_lift
  | |- wp (if ?b then _ else _) _ _ => destruct b eqn:?
  | |- wp (match ?x with _ => _ end) _ _ => destruct x eqn:?
  | |- match ?r with Ok _ => _ | Err _ => _ end => destruct r eqn:?
  end; cbv beta iota zeta.

Ltac wp_run := repeat wp_step.

Lemma json_Marshal_Ok account data :
  json_Marshal account = Ok data ↔
  unsupported (Balance account) = false ∧ data = Encoded account.
Proof.
  unfold json_Marshal.
  destruct (unsupported (Balance account)); split; intros; break; done.
Qed.

Lemma json_Unmarshal_Ok data account :
  json_Unmarshal data = Ok account ↔ data = Encoded account.
Proof. destruct data; simpl; split; intros; by simplify_eq. Qed.

(** ** The methods on a stub that serves every call *)

Lemma AccountExists_available id stub :
  available stub →
  AccountExists id stub = (Ok (not_nil (World stub !! id)), served stub).
Proof.
  intros Hav. unfold AccountExists, bind, or_else.
  by rewrite GetState_available.
Qed.

Lemma ReadAccount_available id stub :
  available stub →
  ReadAccount id stub
  = (match World stub !! id with
     | None => Err (NotFoundError id)
     | Some data => json_Unmarshal data
     end, served stub).
Proof.
  intros Hav. unfold ReadAccount, bind, or_else.
  rewrite GetState_available by done.
  by destruct (World stub !! id).
Qed.

Lemma ReadAccount_holds id account stub :
  available stub → holds stub id account →
  ReadAccount id stub = (Ok account, served stub).
Proof.
  intros Hav Hid. rewrite ReadAccount_available by done.
  unfold holds in Hid. by rewrite Hid.
Qed.

(** [AccountExists] writes nothing, on any stub. *)
Lemma AccountExists_pure id stub :
  (AccountExists id stub).2 = served stub.
Proof.
  unfold AccountExists, bind, or_else, GetState.
  by destruct (stub_call_cases (λ stub, (World stub !! id, stub)) stub)
    as [(msg & _ & ->)|[_ ->]].
Qed.

(** The outcome of [AccountExists] in terms of the fault script and the
    world state. *)
Lemma AccountExists_outcome id stub :
  (AccountExists id stub).1
  = match (next_fault stub).1 with
    | Some msg => Err (ReadFailedError msg)
    | None => Ok (not_nil (World stub !! id))
    end.
Proof.
  unfold AccountExists, bind, or_else, GetState.
  destruct (stub_call_cases (λ stub, (World stub !! id, stub)) stub)
    as [(msg & -> & ->)|[-> ->]]; simpl; [done|].
  by rewrite World_served.
Qed.

Lemma GetState_outcome key stub :
  (GetState key stub).1
  = match (next_fault stub).1 with
    | Some msg => Err (StubError msg)
    | None => Ok (World stub !! key)
    end.
Proof.
  unfold GetState.
  destruct (stub_call_cases (λ stub, (World stub !! key, stub)) stub)
    as [(msg & -> & ->)|[-> ->]]; simpl; [done|].
  by rewrite World_served.
Qed.

(** ** AccountExists *)

Lemma serves_next_None stub : serves_next stub ↔ (next_fault stub).1 = None.
Proof.
  unfold serves_next, next_fault.
  destruct (Faults stub) as [|[msg|] rest]; simpl; split; done.
Qed.

(** C8.  [AccountExists id] answers [true] exactly when the stub serves the
    read and the world state binds [id] to some value, and [false] exactly
    when the read is served and [id] is unbound.  The value is never decoded:
    a bound value that [json.Unmarshal] rejects still answers [true].  The
    call fails exactly when [GetState] fails, with that error wrapped, and it
    writes nothing. *)
Theorem AccountExists_is_a_probe (id : string) (stub : ChaincodeStub) :
  ((AccountExists id stub).1 = Ok true
   ↔ serves_next stub ∧ is_Some (World stub !! id))
  ∧ ((AccountExists id stub).1 = Ok false
     ↔ serves_next stub ∧ World stub !! id = None)
  ∧ (∀ value, serves_next stub → World stub !! id = Some value →
              is_Ok (json_Unmarshal value) = false →
              (AccountExists id stub).1 = Ok true)
  ∧ (∀ e, (AccountExists id stub).1 = Err e
          ↔ ∃ cause, (GetState id stub).1 = Err cause
                     ∧ e = ReadFailedError (Error cause))
  ∧ World (AccountExists id stub).2 = World stub
  ∧ Writes (AccountExists id stub).2 = Writes stub.
Proof.
  rewrite AccountExists_pure, World_served, Writes_served.
  rewrite AccountExists_outcome, GetState_outcome.
  pose proof (serves_next_None stub) as Hserved. revert Hserved.
  generalize (serves_next stub). intros served_next Hserved.
  destruct (next_fault stub).1 as [msg|]; simpl.
  - assert (¬ served_next) by (by intros ?%Hserved).
    repeat split; try done; intros; break; by eauto.
  - assert served_next by (by apply Hserved).
    destruct (World stub !! id) as [value|]; simpl;
      repeat split; try done; intros; break; by eauto.
Qed.

(** The probe on a concrete ledger: a seeded key, a key holding bytes that do
    not decode, a missing key, and a failing read. *)
Lemma AccountExists_is_a_probe_witness :
  (AccountExists "account1" probe_stub).1 = Ok true
  ∧ (AccountExists "broken" probe_stub).1 = Ok true
  ∧ (AccountExists "account9" probe_stub).1 = Ok false
  ∧ (AccountExists "account1" (genesis [Some "EOF"])).1
    = Err (Errorf "failed to read from world state: EOF").
Proof.
  pose proof (AccountExists_is_a_probe "account1" probe_stub) as H1.
  pose proof (AccountExists_is_a_probe "broken" probe_stub) as H2.
  pose proof (AccountExists_is_a_probe "account9" probe_stub) as H3.
  pose proof (AccountExists_is_a_probe "account1" (genesis [Some "EOF"])) as H4.
  split; [|split; [|split]].
  - apply H1. split; [by vm_compute|]. vm_compute. by eexists.
  - apply (proj1 (proj2 (proj2 H2)) (Malformed "unexpected end of JSON input"));
      by vm_compute.
  - apply H3. by vm_compute.
  - apply H4. exists (StubError "EOF"). by vm_compute.
Defined.

Lemma AccountExists_eq id stub :
  AccountExists id stub
  = (match (next_fault stub).1 with
     | Some msg => Err (ReadFailedError msg)
     | None => Ok (not_nil (World stub !! id))
     end, served stub).
Proof.
  rewrite <- (AccountExists_outcome id stub), <- (AccountExists_pure id stub).
  by destruct (AccountExists id stub).
Qed.

(** ** Existence gating *)

(** C5.  On any stub, [CreateAccount] on a key that is bound fails and leaves
    the world state and the write log as they were (so the prior record
    stays); the error is "the account id already exists" whenever the stub
    serves the existence read.  [UpdateAccount] and [DeleteAccount] on a key
    that is unbound fail, with "the account id does not exist" whenever the
    read is served, and write nothing. *)
Theorem existence_gating (stub : ChaincodeStub) (id owner : string) (balance : float) :
  (is_Some (World stub !! id) →
     is_Ok (CreateAccount id owner balance stub).1 = false
     ∧ (serves_next stub →
        (CreateAccount id owner balance stub).1 = Err (AlreadyExistsError id))
     ∧ World (CreateAccount id owner balance stub).2 = World stub
     ∧ Writes (CreateAccount id owner balance stub).2 = Writes stub)
  ∧ (World stub !! id = None →
     (is_Ok (UpdateAccount id owner balance stub).1 = false
      ∧ (serves_next stub →
         (UpdateAccount id owner balance stub).1 = Err (NotFoundError id))
      ∧ World (UpdateAccount id owner balance stub).2 = World stub
      ∧ Writes (UpdateAccount id owner balance stub).2 = Writes stub)
     ∧ (is_Ok (DeleteAccount id stub).1 = false
        ∧ (serves_next stub →
           (DeleteAccount id stub).1 = Err (NotFoundError id))
        ∧ World (DeleteAccount id stub).2 = World stub
        ∧ Writes (DeleteAccount id stub).2 = Writes stub)).
Proof.
  unfold CreateAccount, UpdateAccount, DeleteAccount, bind.
  rewrite AccountExists_eq, serves_next_None.
  split.
  - intros [value ->].
    destruct (next_fault stub).1 as [msg|]; simpl;
      by rewrite World_served, Writes_served.
  - intros ->.
    destruct (next_fault stub).1 as [msg|]; simpl;
      by rewrite World_served, Writes_served.
Qed.

(** Gating on the seeded ledger: "account1" is taken, "account9" is free. *)
Lemma existence_gating_witness :
  (CreateAccount "account1" "Eve" 1%float seeded).1
  = Err (Errorf "the account account1 already exists")
  ∧ World (CreateAccount "account1" "Eve" 1%float seeded).2 !! "account1"
    = Some (Encoded (mkAccount "account1" "Tomoko" 1000%float))
  ∧ (UpdateAccount "account9" "Eve" 1%float seeded).1
    = Err (Errorf "the account account9 does not exist")
  ∧ Writes (DeleteAccount "account9" seeded).2 = Writes seeded.
Proof.
  destruct (existence_gating seeded "account1" "Eve" 1%float) as [Hc _].
  destruct (existence_gating seeded "account9" "Eve" 1%float) as [_ Hud].
  destruct Hc as (_ & Hcerr & Hcw & _); [vm_compute; by eexists|].
  destruct Hud as [(_ & Huerr & _) (_ & _ & _ & Hdw)]; [by vm_compute|].
  split; [|split; [|split]].
  - apply Hcerr. by vm_compute.
  - rewrite Hcw. by vm_compute.
  - apply Huerr. by vm_compute.
  - exact Hdw.
Defined.

(** ** TransferFunds *)

(** The whole of [TransferFunds] on a stub that serves every call, for two
    keys that hold accounts. *)
Lemma TransferFunds_available fromID toID amount fromAccount toAccount stub :
  available stub →
  holds stub fromID fromAccount →
  holds stub toID toAccount →
  TransferFunds fromID toID amount stub
  = if (Balance fromAccount <? amount)%float
    then (Err (InsufficientFundsError fromID), served (served stub))
    else
      match json_Marshal (set_Balance fromAccount (Balance fromAccount - amount)%float) with
      | Err e => (Err e, served (served stub))
      | Ok fromAccountJSON =>
          let stub1 := put fromID fromAccountJSON (served (served (served stub))) in
          match json_Marshal (set_Balance toAccount (Balance toAccount + amount)%float) with
          | Err e => (Err e, stub1)
          | Ok toAccountJSON => (Ok tt, put toID toAccountJSON (served stub1))
          end
      end.
Proof.
  intros Hav Hfrom Hto. unfold TransferFunds, bind at 1.
  rewrite (ReadAccount_holds _ fromAccount) by done.
  unfold bind at 1.
  rewrite (ReadAccount_holds _ toAccount)
    by (try apply available_served; try done; unfold holds; by rewrite World_served).
  destruct (Balance fromAccount <? amount)%float; [done|].
  unfold bind at 1, lift at 1.
  destruct (json_Marshal (set_Balance fromAccount _)) as [fromAccountJSON|e]; [|done].
  unfold bind at 1.
  rewrite PutState_available by (by do 2 apply available_served).
  unfold bind at 1, lift at 1.
  destruct (json_Marshal (set_Balance toAccount _)) as [toAccountJSON|e]; [|done].
  rewrite PutState_available; [done|].
  by do 3 apply available_served.
Qed.

(** With accounts under both keys and an amount above the source balance,
    [TransferFunds] fails before its first write, on any stub. *)
Lemma TransferFunds_rejected_wp fromID toID amount fromAccount toAccount stub :
  holds stub fromID fromAccount →
  holds stub toID toAccount →
  (Balance fromAccount <? amount)%float = true →
  wp (TransferFunds fromID toID amount)
     (λ r stub', is_Ok r = false
                 ∧ World stub' = World stub ∧ Writes stub' = Writes stub)
     stub.
Proof.
  unfold holds. intros Hfrom Hto Hlt. unfold TransferFunds, ReadAccount.
  wp_run; rewrite ?World_served, ?Writes_served in *; try done.
  all: simplify_eq; simpl in *; simplify_eq; congruence.
Qed.

(** C3.  With accounts stored under [fromID] and [toID] and an amount above
    the source balance, [TransferFunds] fails, on any stub, and the world
    state and the write log are what they were: nothing was written and both
    accounts are stored unchanged.  On a stub that serves its calls the
    error is "insufficient funds in the account fromID". *)
Theorem TransferFunds_insufficient_funds
  (stub : ChaincodeStub) (fromID toID : string) (amount : float)
  (fromAccount toAccount : Account) :
  holds stub fromID fromAccount →
  holds stub toID toAccount →
  (Balance fromAccount <? amount)%float = true →
  is_Ok (TransferFunds fromID toID amount stub).1 = false
  ∧ (available stub →
     (TransferFunds fromID toID amount stub).1 = Err (InsufficientFundsError fromID))
  ∧ World (TransferFunds fromID toID amount stub).2 = World stub
  ∧ Writes (TransferFunds fromID toID amount stub).2 = Writes stub
  ∧ holds (TransferFunds fromID toID amount stub).2 fromID fromAccount
  ∧ holds (TransferFunds fromID toID amount stub).2 toID toAccount.
Proof.
  intros Hfrom Hto Hlt.
  destruct (TransferFunds_rejected_wp _ _ _ _ _ _ Hfrom Hto Hlt)
    as (Hfail & Hworld & Hwrites).
  split; [done|]. split.
  - intros Hav.
    rewrite (TransferFunds_available _ _ _ fromAccount toAccount) by done.
    by rewrite Hlt.
  - unfold holds. by rewrite Hworld.
Qed.

(** The spec's scenario: 99999 out of account1, which has 1000. *)
Lemma TransferFunds_insufficient_funds_witness :
  (TransferFunds "account1" "account2" 99999%float seeded).1
  = Err (Errorf "insufficient funds in the account account1")
  ∧ World (TransferFunds "account1" "account2" 99999%float seeded).2 = World seeded
  ∧ Writes (TransferFunds "account1" "account2" 99999%float seeded).2 = Writes seeded
  ∧ holds (TransferFunds "account1" "account2" 99999%float seeded).2 "account1"
      (mkAccount "account1" "Tomoko" 1000%float)
  ∧ holds (TransferFunds "account1" "account2" 99999%float seeded).2 "account2"
      (mkAccount "account2" "Brad" 2000%float).
Proof.
  destruct (TransferFunds_insufficient_funds seeded "account1" "account2" 99999%float
              (mkAccount "account1" "Tomoko" 1000%float)
              (mkAccount "account2" "Brad" 2000%float))
    as (_ & Herr & Hrest).
  - by vm_compute.
  - by vm_compute.
  - by vm_compute.
  - split; [|exact Hrest]. apply Herr. by vm_compute.
Defined.

(** A transfer of an account to itself: the two reads see the same record,
    the second write replaces the first, and the balance that stays is
    [Balance + amount]. *)
Lemma TransferFunds_self stub id amount account :
  available stub →
  holds stub id account →
  (Balance account <? amount)%float = false →
  unsupported (Balance account - amount)%float = false →
  unsupported (Balance account + amount)%float = false →
  (TransferFunds id id amount stub).1 = Ok tt
  ∧ holds (TransferFunds id id amount stub).2 id
      (set_Balance account (Balance account + amount)%float).
Proof.
  intros Hav Hid Hlt Hsub Hadd.
  rewrite (TransferFunds_available _ _ _ account account) by done.
  rewrite Hlt. unfold json_Marshal. simpl. rewrite Hsub, Hadd. simpl.
  split; [done|]. unfold holds. simpl. by rewrite lookup_insert_eq.
Qed.

(** C1 (the code departs from it).  On the seeded ledger account1 holds 1000;
    [TransferFunds "account1" "account1" 300] passes the funds check,
    succeeds, and leaves 1300 under account1. *)
Theorem TransferFunds_to_self_changes_balance :
  holds seeded "account1" (mkAccount "account1" "Tomoko" 1000%float)
  ∧ (300 <=? 1000)%float = true
  ∧ (TransferFunds "account1" "account1" 300%float seeded).1 = Ok tt
  ∧ holds (TransferFunds "account1" "account1" 300%float seeded).2 "account1"
      (mkAccount "account1" "Tomoko" 1300%float)
  ∧ (1300 =? 1000)%float = false.
Proof. repeat split; by vm_compute. Qed.

(** ** CreateAccount then ReadAccount *)

Lemma CreateAccount_available id owner balance stub :
  available stub →
  CreateAccount id owner balance stub
  = if not_nil (World stub !! id)
    then (Err (AlreadyExistsError id), served stub)
    else match json_Marshal {| ID := id; Owner := owner; Balance := balance |} with
         | Err e => (Err e, served stub)
         | Ok accountJSON => (Ok tt, put id accountJSON (served (served stub)))
         end.
Proof.
  intros Hav. unfold CreateAccount, bind at 1.
  rewrite AccountExists_available by done.
  destruct (not_nil (World stub !! id)); [done|].
  unfold bind, lift.
  destruct (json_Marshal _) as [accountJSON|e]; [|done].
  by rewrite PutState_available by by apply available_served.
Qed.




(** ** Floating-point order *)

Lemma SFcompare_antisym x y :
  SFcompare y x = option_map CompOpp (SFcompare x y).
Proof.
  destruct x as [sx|sx| |sx mx ex], y as [sy|sy| |sy my ey]; simpl;
    try by (try destruct sx; try destruct sy).
  change (Pos.compare_cont Eq my mx) with (my ?= mx)%positive.
  change (Pos.compare_cont Eq mx my) with (mx ?= my)%positive.
  rewrite (Z.compare_antisym ex ey), (Pos.compare_antisym mx my).
  destruct sx, sy; simpl; try done;
    destruct (ex ?= ey)%Z; simpl; try done;
    by destruct (mx ?= my)%positive.
Qed.

(** [x >= y] rules out [x < y]. *)
Lemma leb_not_ltb (x y : float) :
  (y <=? x)%float = true → (x <? y)%float = false.
Proof.
  rewrite leb_spec, ltb_spec. unfold SFleb, SFltb.
  rewrite (SFcompare_antisym (Prim2SF x) (Prim2SF y)).
  by destruct (SFcompare (Prim2SF x) (Prim2SF y)) as [[]|].
Qed.

(** ** Successful transfers *)

(** What a [TransferFunds] that returns [nil] has done, on any stub. *)
Lemma TransferFunds_success_wp fromID toID amount stub :
  wp (TransferFunds fromID toID amount)
     (λ r stub',
        r = Ok tt →
        ∃ fromAccount toAccount,
          holds stub fromID fromAccount ∧ holds stub toID toAccount
          ∧ (Balance fromAccount <? amount)%float = false
          ∧ unsupported (Balance fromAccount - amount)%float = false
          ∧ unsupported (Balance toAccount + amount)%float = false
          ∧ World stub'
            = <[toID := Encoded (set_Balance toAccount (Balance toAccount + amount)%float)]>
                (<[fromID := Encoded (set_Balance fromAccount (Balance fromAccount - amount)%float)]>
                   (World stub))
          ∧ Writes stub'
            = Put toID (Encoded (set_Balance toAccount (Balance toAccount + amount)%float))
              :: Put fromID (Encoded (set_Balance fromAccount (Balance fromAccount - amount)%float))
              :: Writes stub)
     stub.
Proof.
  unfold TransferFunds, ReadAccount. wp_run; try done.
  intros _.
  repeat match goal with
         | H : json_Unmarshal _ = Ok _ |- _ => apply json_Unmarshal_Ok in H
         | H : json_Marshal _ = Ok _ |- _ => apply json_Marshal_Ok in H as [? ?]
         end.
  subst. rewrite World_served in *.
  eexists _, _. repeat split; try done.
  - by rewrite !World_put, !World_served.
  - by rewrite !Writes_put, !Writes_served.
Qed.

(** C2, as stated, fails.  Accounts "a" and "b" hold 3 and 2^53; the
    transfer of 1 from "a" to "b" succeeds; "a" then holds 2 and "b" still
    holds 2^53, because 2^53 + 1 is not a [float64] and rounds back to 2^53.
    The sum of the two balances was 2^53 + 3 and is 2^53 + 2, both as exact
    numbers and as [float64] sums (2^53 + 4 before, 2^53 + 2 after). *)
Lemma TransferFunds_rounding_loses_funds :
  holds rounding_stub "a" (mkAccount "a" "x" 3%float)
  ∧ holds rounding_stub "b" (mkAccount "b" "y" 9007199254740992%float)
  ∧ (1 <=? 3)%float = true
  ∧ (TransferFunds "a" "b" 1%float rounding_stub).1 = Ok tt
  ∧ holds (TransferFunds "a" "b" 1%float rounding_stub).2 "a" (mkAccount "a" "x" 2%float)
  ∧ holds (TransferFunds "a" "b" 1%float rounding_stub).2 "b"
      (mkAccount "b" "y" 9007199254740992%float)
  ∧ pair_sum rounding_stub "a" "b" = Some 9007199254740996%float
  ∧ pair_sum (TransferFunds "a" "b" 1%float rounding_stub).2 "a" "b"
    = Some 9007199254740994%float
  ∧ (9007199254740994 =? 9007199254740996)%float = false
  ∧ option_map Qred (pair_total rounding_stub "a" "b")
    = Some (9007199254740995 # 1)%Q
  ∧ option_map Qred (pair_total (TransferFunds "a" "b" 1%float rounding_stub).2 "a" "b")
    = Some (9007199254740994 # 1)%Q.
Proof. repeat split; by vm_compute. Qed.

(** C2, amended.  A [TransferFunds] between two distinct keys that returns
    [nil] leaves [Balance - amount] under [fromID] and [Balance + amount]
    under [toID], both computed in [float64], and changes no other key; when
    neither operation rounds, the exact sum of the two balances is what it
    was. *)
Theorem TransferFunds_conservation
  (stub : ChaincodeStub) (fromID toID : string) (amount : float)
  (fromAccount toAccount : Account) :
  fromID ≠ toID →
  holds stub fromID fromAccount →
  holds stub toID toAccount →
  (TransferFunds fromID toID amount stub).1 = Ok tt →
  holds (TransferFunds fromID toID amount stub).2 fromID
    (set_Balance fromAccount (Balance fromAccount - amount)%float)
  ∧ holds (TransferFunds fromID toID amount stub).2 toID
      (set_Balance toAccount (Balance toAccount + amount)%float)
  ∧ (∀ id, id ≠ fromID → id ≠ toID →
       World (TransferFunds fromID toID amount stub).2 !! id = World stub !! id)
  ∧ (exactly Qminus (Balance fromAccount) amount (Balance fromAccount - amount)%float →
     exactly Qplus (Balance toAccount) amount (Balance toAccount + amount)%float →
     ∃ before after,
       pair_total stub fromID toID = Some before
       ∧ pair_total (TransferFunds fromID toID amount stub).2 fromID toID = Some after
       ∧ (after == before)%Q).
Proof.
  intros Hne Hfrom Hto Hok.
  destruct (TransferFunds_success_wp fromID toID amount stub Hok)
    as (fromAccount' & toAccount' & Hfrom' & Hto' & _ & _ & _ & HW & _).
  unfold holds in *. simplify_eq.
  assert (Hf : World (TransferFunds fromID toID amount stub).2 !! fromID
               = Some (Encoded (set_Balance fromAccount (Balance fromAccount - amount)%float)))
    by (rewrite HW, lookup_insert_ne, lookup_insert_eq; done).
  assert (Ht : World (TransferFunds fromID toID amount stub).2 !! toID
               = Some (Encoded (set_Balance toAccount (Balance toAccount + amount)%float)))
    by (by rewrite HW, lookup_insert_eq).
  split; [done|]. split; [done|]. split.
  - intros id Hid1 Hid2. by rewrite HW, !lookup_insert_ne.
  - unfold exactly, pair_total, stored_balance.
    rewrite Hf, Ht, Hfrom, Hto. simpl.
    destruct (real_value (Balance fromAccount)) as [qa|]; [|done].
    destruct (real_value amount) as [qm|]; [|done].
    destruct (real_value (Balance fromAccount - amount)%float) as [qa'|]; [|done].
    destruct (real_value (Balance toAccount)) as [qc|]; [|done].
    destruct (real_value (Balance toAccount + amount)%float) as [qc'|]; [|done].
    intros Ha Hc. eexists _, _. split; [done|]. split; [done|].
    rewrite Ha, Hc. ring.
Qed.

(** The spec's scenario: 300 from account1 (1000) to account2 (2000). *)
Lemma TransferFunds_conservation_witness :
  holds (TransferFunds "account1" "account2" 300%float seeded).2 "account1"
    (mkAccount "account1" "Tomoko" 700%float)
  ∧ holds (TransferFunds "account1" "account2" 300%float seeded).2 "account2"
      (mkAccount "account2" "Brad" 2300%float)
  ∧ ∃ before after,
      pair_total seeded "account1" "account2" = Some before
      ∧ pair_total (TransferFunds "account1" "account2" 300%float seeded).2
          "account1" "account2" = Some after
      ∧ (after == before)%Q.
Proof.
  destruct (TransferFunds_conservation seeded "account1" "account2" 300%float
              (mkAccount "account1" "Tomoko" 1000%float)
              (mkAccount "account2" "Brad" 2000%float))
    as (Hfrom & Hto & _ & Hsum).
  - done.
  - by vm_compute.
  - by vm_compute.
  - by vm_compute.
  - split; [exact Hfrom|]. split; [exact Hto|].
    apply Hsum; by vm_compute.
Defined.

(** ** Non-positive amounts *)

(** C7, as stated, fails.  "a" holds the largest finite balance and "b"
    holds 0; the amount [-MaxFloat64] is at most the balance and at most 0,
    yet [TransferFunds] does not succeed: the new source balance
    [MaxFloat64 + MaxFloat64] is [+Inf], which [json.Marshal] refuses, and
    nothing is written. *)
Lemma TransferFunds_negative_amount_overflows :
  holds overflow_stub "a" (mkAccount "a" "x" MaxFloat64)
  ∧ holds overflow_stub "b" (mkAccount "b" "y" 0%float)
  ∧ (- MaxFloat64 <=? MaxFloat64)%float = true
  ∧ (- MaxFloat64 <=? 0)%float = true
  ∧ (TransferFunds "a" "b" (- MaxFloat64)%float overflow_stub).1
    = Err (UnsupportedValueError "+Inf")
  ∧ Writes (TransferFunds "a" "b" (- MaxFloat64)%float overflow_stub).2
    = Writes overflow_stub.
Proof. repeat split; by vm_compute. Qed.

(** C7, amended.  On a stub that serves its calls, with accounts under
    [fromID] and [toID], [Balance >= amount] and [amount <= 0]:
    [TransferFunds] is not refused for insufficient funds; and when the two
    keys differ and both new balances are finite it succeeds, leaving
    [Balance - amount] under [fromID] and [Balance + amount] under [toID]. *)
Theorem TransferFunds_nonpositive_amount
  (stub : ChaincodeStub) (fromID toID : string) (amount : float)
  (fromAccount toAccount : Account) :
  available stub →
  holds stub fromID fromAccount →
  holds stub toID toAccount →
  (amount <=? Balance fromAccount)%float = true →
  (amount <=? 0)%float = true →
  (TransferFunds fromID toID amount stub).1 ≠ Err (InsufficientFundsError fromID)
  ∧ (fromID ≠ toID →
     unsupported (Balance fromAccount - amount)%float = false →
     unsupported (Balance toAccount + amount)%float = false →
     (TransferFunds fromID toID amount stub).1 = Ok tt
     ∧ holds (TransferFunds fromID toID amount stub).2 fromID
         (set_Balance fromAccount (Balance fromAccount - amount)%float)
     ∧ holds (TransferFunds fromID toID amount stub).2 toID
         (set_Balance toAccount (Balance toAccount + amount)%float)).
Proof.
  intros Hav Hfrom Hto Hle _.
  rewrite (TransferFunds_available _ _ _ fromAccount toAccount) by done.
  rewrite (leb_not_ltb _ _ Hle). unfold json_Marshal. cbn [Balance set_Balance].
  split.
  - destruct (unsupported (Balance fromAccount - amount)%float); [done|].
    by destruct (unsupported (Balance toAccount + amount)%float).
  - intros Hne -> ->. cbn [fst snd]. split; [done|].
    unfold holds. rewrite !World_put, !World_served.
    by rewrite lookup_insert_eq, lookup_insert_ne, lookup_insert_eq.
Qed.

(** A transfer of -300 from account1 to account2 moves 300 the other way. *)
Lemma TransferFunds_nonpositive_amount_witness :
  (TransferFunds "account1" "account2" (-300)%float seeded).1
  ≠ Err (InsufficientFundsError "account1")
  ∧ (TransferFunds "account1" "account2" (-300)%float seeded).1 = Ok tt
  ∧ holds (TransferFunds "account1" "account2" (-300)%float seeded).2 "account1"
      (mkAccount "account1" "Tomoko" 1300%float)
  ∧ holds (TransferFunds "account1" "account2" (-300)%float seeded).2 "account2"
      (mkAccount "account2" "Brad" 1700%float).
Proof.
  destruct (TransferFunds_nonpositive_amount seeded "account1" "account2" (-300)%float
              (mkAccount "account1" "Tomoko" 1000%float)
              (mkAccount "account2" "Brad" 2000%float))
    as [Hcheck Hdone].
  - by vm_compute.
  - by vm_compute.
  - by vm_compute.
  - by vm_compute.
  - by vm_compute.
  - split; [exact Hcheck|]. apply Hdone; by vm_compute.
Defined.

(** ** GetAllAccounts *)

Lemma in_range_unbounded key : in_range "" "" key = true.
Proof. by destruct key. Qed.

Lemma filter_unbounded (bindings : list (string * bytes)) :
  filter (λ kv, in_range "" "" kv.1 = true) bindings = bindings.
Proof.
  induction bindings as [|kv l IH]; [done|].
  rewrite filter_cons_True by apply in_range_unbounded.
  by rewrite IH.
Qed.

Lemma GetStateByRange_all stub :
  available stub →
  GetStateByRange "" "" stub
  = (Ok (map (λ kv, mkKV kv.1 kv.2) (map_to_list (World stub))), served stub).
Proof.
  intros Hav. unfold GetStateByRange.
  rewrite stub_call_available by done. cbn [fst snd].
  by rewrite World_served, filter_unbounded.
Qed.

Lemma Next_available entry stub :
  available stub → Next entry stub = (Ok entry, served stub).
Proof. intros Hav. unfold Next. by rewrite stub_call_available. Qed.

Lemma collect_cons entry rest accounts stub :
  available stub →
  collect (entry :: rest) accounts stub
  = match json_Unmarshal (Value entry) with
    | Ok account => collect rest (accounts ++ [account]) (served stub)
    | Err e => (Err e, served stub)
    end.
Proof.
  intros Hav. cbn [collect]. unfold bind at 1. rewrite Next_available by done.
  unfold bind at 1, lift at 1.
  by destruct (json_Unmarshal (Value entry)).
Qed.

(** The loop either decodes every entry, in order, or stops at an entry that
    does not decode and returns the decoder's error. *)
Lemma collect_available resultsIterator :
  ∀ accounts stub,
    available stub →
    (∃ decoded,
        (collect resultsIterator accounts stub).1 = Ok (accounts ++ decoded)
        ∧ Forall2 (λ account entry, json_Unmarshal (Value entry) = Ok account)
            decoded resultsIterator)
    ∨ (∃ e entry,
          (collect resultsIterator accounts stub).1 = Err e
          ∧ entry ∈ resultsIterator
          ∧ json_Unmarshal (Value entry) = Err e).
Proof.
  induction resultsIterator as [|entry rest IH]; intros accounts stub Hav.
  - left. exists []. by rewrite app_nil_r.
  - rewrite collect_cons by done.
    destruct (json_Unmarshal (Value entry)) as [account|e] eqn:Hentry.
    + destruct (IH (accounts ++ [account]) (served stub) (available_served _ Hav))
        as [(decoded & -> & Hall)|(e & bad & -> & Hbad & He)].
      * left. exists (account :: decoded).
        split; [by rewrite <- app_assoc|by constructor].
      * right. exists e, bad. split; [done|].
        split; [by apply list_elem_of_further|done].
    + right. exists e, entry. split; [done|].
      split; [by apply list_elem_of_here|done].
Qed.

(** On any stub, a list the loop returns extends [accounts] by the decoding
    of every entry, in order. *)
Lemma collect_complete resultsIterator :
  ∀ accounts stub,
    wp (collect resultsIterator accounts)
       (λ r _, ∀ listed,
          r = Ok listed →
          ∃ decoded,
            listed = accounts ++ decoded
            ∧ Forall2 (λ account entry, json_Unmarshal (Value entry) = Ok account)
                decoded resultsIterator)
       stub.
Proof.
  induction resultsIterator as [|entry rest IH]; intros accounts stub;
    cbn [collect].
  - apply wp_ret. intros listed [= <-]. exists []. by rewrite app_nil_r.
  - wp_run; try done.
    eapply wp_mono; [apply IH|]. cbv beta.
    intros r _ Hrest listed Hr.
    destruct (Hrest listed Hr) as (decoded & -> & Hall).
    exists (a :: decoded). split; [by rewrite <- app_assoc|by constructor].
Qed.

(** C9.  On any stub, a list that [GetAllAccounts] returns holds one decoded
    Account per binding of the world state, in the store's iteration order:
    it is never a partial listing.  On a stub that serves its calls: if
    every stored value decodes, [GetAllAccounts] returns such a list, with as
    many accounts as keys and exactly the accounts held; if some stored value
    does not decode, it returns an error of the decoder and no list. *)
Theorem GetAllAccounts_all_or_nothing (stub : ChaincodeStub) :
  (∀ accounts,
     (GetAllAccounts stub).1 = Ok accounts →
     Forall2 (λ account binding, json_Unmarshal binding.2 = Ok account)
       accounts (map_to_list (World stub)))
  ∧ (available stub →
     ((∀ id value, World stub !! id = Some value →
                   is_Ok (json_Unmarshal value) = true) →
      ∃ accounts,
        (GetAllAccounts stub).1 = Ok accounts
        ∧ length accounts = size (World stub)
        ∧ ∀ account, account ∈ accounts ↔ ∃ id, holds stub id account)
     ∧ (∀ id value,
          World stub !! id = Some value → is_Ok (json_Unmarshal value) = false →
          ∃ e bad value',
            (GetAllAccounts stub).1 = Err e
            ∧ World stub !! bad = Some value'
            ∧ json_Unmarshal value' = Err e)).
Proof.
  assert (Hcomplete : ∀ accounts,
     (GetAllAccounts stub).1 = Ok accounts →
     Forall2 (λ account binding, json_Unmarshal binding.2 = Ok account)
       accounts (map_to_list (World stub))).
  { change (wp GetAllAccounts
              (λ r _, ∀ accounts, r = Ok accounts →
                 Forall2 (λ account binding, json_Unmarshal binding.2 = Ok account)
                   accounts (map_to_list (World stub))) stub).
    unfold GetAllAccounts. wp_run; [done|].
    eapply wp_mono; [apply collect_complete|]. cbv beta.
    intros r _ Hall accounts Hr.
    destruct (Hall accounts Hr) as (decoded & -> & Hdecoded).
    apply Forall2_fmap_r in Hdecoded. cbn [Value] in Hdecoded.
    rewrite app_nil_l.
    by rewrite filter_unbounded in Hdecoded. }
  split; [exact Hcomplete|].
  intros Hav. unfold GetAllAccounts, bind in *.
  rewrite GetStateByRange_all in * by done.
  destruct (collect_available
              (map (λ kv, mkKV kv.1 kv.2) (map_to_list (World stub)))
              [] (served stub) (available_served _ Hav))
    as [(decoded & Hrun & _)|(e & bad & Hrun & Hbad & He)].
  - pose proof (Hcomplete _ Hrun) as Hall. rewrite Hrun. clear Hrun Hcomplete.
    rewrite app_nil_l in *.
    split.
    + intros _. exists decoded. split; [done|]. split.
      * rewrite (Forall2_length _ _ _ Hall). by rewrite length_map_to_list.
      * intros account. unfold holds. split.
        -- intros Hin. apply list_elem_of_lookup in Hin as [i Hi].
           destruct (Forall2_lookup_l _ _ _ _ _ Hall Hi) as ([id value] & Hb & Hdec).
           apply json_Unmarshal_Ok in Hdec. simpl in Hdec. subst.
           exists id. apply elem_of_map_to_list. by eapply list_elem_of_lookup_2.
        -- intros [id Hid]. apply elem_of_map_to_list in Hid.
           apply list_elem_of_lookup in Hid as [i Hi].
           destruct (Forall2_lookup_r _ _ _ _ _ Hall Hi) as (account' & Ha & Hdec).
           simpl in Hdec. simplify_eq. by eapply list_elem_of_lookup_2.
    + intros id value Hid Hbad. exfalso.
      apply elem_of_map_to_list in Hid.
      apply list_elem_of_lookup in Hid as [i Hi].
      destruct (Forall2_lookup_r _ _ _ _ _ Hall Hi) as (account' & _ & Hdec).
      simpl in Hdec. by rewrite Hdec in Hbad.
  - rewrite Hrun. clear Hrun Hcomplete.
    apply list_elem_of_fmap in Hbad as ([id value] & -> & Hin).
    cbn [Value] in He. simpl in He.
    apply elem_of_map_to_list in Hin.
    split.
    + intros Hgood. apply Hgood in Hin. by rewrite He in Hin.
    + intros _ _ _ _. by exists e, id, value.
Qed.

(** The six seeded accounts are listed; one undecodable value more and the
    listing fails as a whole. *)
Lemma GetAllAccounts_all_or_nothing_witness :
  (∃ accounts,
      (GetAllAccounts seeded).1 = Ok accounts
      ∧ length accounts = 6
      ∧ mkAccount "account3" "Jin Soo" 3000%float ∈ accounts)
  ∧ (∃ e bad value',
        (GetAllAccounts probe_stub).1 = Err e
        ∧ World probe_stub !! bad = Some value'
        ∧ json_Unmarshal value' = Err e).
Proof.
  split.
  - destruct (GetAllAccounts_all_or_nothing seeded) as [_ Hserved].
    destruct Hserved as [Hgood _]; [by vm_compute|].
    destruct Hgood as (accounts & Hrun & Hlen & Hin).
    + change (map_Forall (λ _ value, is_Ok (json_Unmarshal value) = true)
                (World seeded)).
      apply (bool_decide_unpack _). by vm_compute.
    + exists accounts. split; [exact Hrun|]. split; [exact Hlen|].
      apply Hin. exists "account3". by vm_compute.
  - destruct (GetAllAccounts_all_or_nothing probe_stub) as [_ Hserved].
    destruct Hserved as [_ Hbad]; [by vm_compute|].
    apply (Hbad "broken" (Malformed "unexpected end of JSON input"));
      by vm_compute.
Defined.

(** ** Invariants along a history *)

Section invariant.
Variable P : string → Prop.
Hypothesis P_seeds : Forall (λ account, P (ID account)) seed_accounts.

Lemma ledger_invariant_served stub :
  ledger_invariant P stub → ledger_invariant P (served stub).
Proof. unfold ledger_invariant. by rewrite World_served, Writes_served. Qed.

Lemma ledger_invariant_put account stub :
  P (ID account) →
  ledger_invariant P stub →
  ledger_invariant P (put (ID account) (Encoded account) stub).
Proof.
  intros HP [Hworld Hwrites].
  assert (keyed P (ID account) (Encoded account)) by (split; [done|by eexists]).
  split; simpl.
  - intros key value. rewrite lookup_insert.
    case_decide; [|by apply Hworld]. by intros [= <-]; subst.
  - by constructor.
Qed.

Lemma ledger_invariant_lookup stub key account :
  ledger_invariant P stub → holds stub key account →
  P key ∧ ID account = key.
Proof.
  intros [Hworld _] Hkey. destruct (Hworld _ _ Hkey) as (HP & account' & Hdec & HID).
  simpl in Hdec. by simplify_eq.
Qed.

Lemma ledger_invariant_bound stub key value :
  ledger_invariant P stub → World stub !! key = Some value → P key.
Proof. intros [Hworld _] Hkey. by destruct (Hworld _ _ Hkey). Qed.

Lemma put_accounts_invariant accounts :
  Forall (λ account, P (ID account)) accounts →
  ∀ stub, ledger_invariant P stub →
          wp (put_accounts accounts) (λ _ stub', ledger_invariant P stub') stub.
Proof.
  induction 1 as [|account rest HP _ IH]; intros stub Hinv; cbn [put_accounts].
  - by apply wp_ret.
  - wp_run; try by repeat apply ledger_invariant_served.
    apply IH.
    match goal with H : json_Marshal _ = Ok _ |- _ =>
      apply json_Marshal_Ok in H as [_ ->] end.
    by apply ledger_invariant_put, ledger_invariant_served.
Qed.

Lemma CreateAccount_invariant id owner balance stub :
  P id → ledger_invariant P stub →
  wp (CreateAccount id owner balance) (λ _ stub', ledger_invariant P stub') stub.
Proof.
  intros HP Hinv. unfold CreateAccount, AccountExists.
  wp_run; try by repeat apply ledger_invariant_served.
  match goal with H : json_Marshal _ = Ok _ |- _ =>
    apply json_Marshal_Ok in H as [_ ->] end.
  by apply (ledger_invariant_put (mkAccount id owner balance)),
    ledger_invariant_served, ledger_invariant_served.
Qed.

Lemma UpdateAccount_invariant id owner balance stub :
  ledger_invariant P stub →
  wp (UpdateAccount id owner balance) (λ _ stub', ledger_invariant P stub') stub.
Proof.
  intros Hinv. unfold UpdateAccount, AccountExists.
  wp_run; try by repeat apply ledger_invariant_served.
  match goal with H : json_Marshal _ = Ok _ |- _ =>
    apply json_Marshal_Ok in H as [_ ->] end.
  destruct (World stub !! id) as [value|] eqn:Hid; [|done].
  apply (ledger_invariant_put (mkAccount id owner balance));
    [by eapply ledger_invariant_bound|].
  by do 2 apply ledger_invariant_served.
Qed.

Lemma DeleteAccount_invariant id stub :
  ledger_invariant P stub →
  wp (DeleteAccount id) (λ _ stub', ledger_invariant P stub') stub.
Proof.
  intros Hinv. unfold DeleteAccount, AccountExists.
  wp_run; try by repeat apply ledger_invariant_served.
  destruct Hinv as [Hworld Hwrites]. split; simpl.
  - rewrite World_served. intros key value [_ Hkey]%lookup_delete_Some.
    by apply Hworld.
  - rewrite Writes_served. by constructor.
Qed.

Lemma TransferFunds_invariant fromID toID amount stub :
  ledger_invariant P stub →
  wp (TransferFunds fromID toID amount) (λ _ stub', ledger_invariant P stub') stub.
Proof.
  intros Hinv. unfold TransferFunds, ReadAccount.
  wp_run; try by repeat apply ledger_invariant_served.
  all: repeat match goal with
         | H : json_Unmarshal _ = Ok _ |- _ => apply json_Unmarshal_Ok in H
         | H : json_Marshal _ = Ok _ |- _ => apply json_Marshal_Ok in H as [_ ?]
         end; subst.
  all: rewrite ?World_served in *.
  all: repeat match goal with
         | H : World _ !! _ = Some (Encoded _), Hinv : ledger_invariant _ _ |- _ =>
             apply (ledger_invariant_lookup _ _ _ Hinv) in H as [? ?]
         end.
  all: repeat first
         [ apply ledger_invariant_served
         | match goal with
           | |- ledger_invariant _ (put ?key (Encoded (set_Balance ?account ?b)) _) =>
               replace key with (ID (set_Balance account b)) by done;
               apply ledger_invariant_put; [simpl; by subst|]
           end ];
       done.
Qed.

Lemma invoke_invariant i stub :
  creates_within P i → ledger_invariant P stub →
  ledger_invariant P (invoke i stub).2.
Proof.
  intros HP Hinv. destruct i; simpl.
  - by apply (put_accounts_invariant seed_accounts P_seeds stub).
  - by apply (CreateAccount_invariant id owner balance stub).
  - by apply (UpdateAccount_invariant id owner balance stub).
  - by apply (DeleteAccount_invariant id stub).
  - by apply (TransferFunds_invariant fromID toID amount stub).
Qed.

Lemma run_invariant history :
  Forall (creates_within P) history →
  ∀ stub, ledger_invariant P stub → ledger_invariant P (run history stub).
Proof.
  induction 1 as [|i rest Hi _ IH]; intros stub Hinv; [done|].
  simpl. by apply IH, invoke_invariant.
Qed.

Lemma genesis_invariant faults : ledger_invariant P (genesis faults).
Proof. split; [|by constructor]. intros key value Hkey. by simpl in Hkey. Qed.
End invariant.


Lemma seeds_non_empty : Forall (λ account, non_empty (ID account)) seed_accounts.
Proof. by repeat constructor. Qed.



(** ** Keys and IDs *)



(** C4, as stated, fails: [CreateAccount] with the empty string as id
    succeeds on a fresh ledger and stores an Account whose ID is empty. *)
Lemma CreateAccount_accepts_empty_ID :
  (CreateAccount "" "nobody" 0%float (genesis [])).1 = Ok tt
  ∧ holds (run [InvokeCreateAccount "" "nobody" 0%float] (genesis [])) ""
      (mkAccount "" "nobody" 0%float)
  ∧ ID (mkAccount "" "nobody" 0%float) = "".
Proof. repeat split; by vm_compute. Qed.

(** C4, amended.  After any history of invocations on a fresh ledger in
    which no [CreateAccount] was given the empty id, every value in the world
    state decodes to an Account with a non-empty ID, and so did every value a
    [PutState] ever stored. *)
Theorem stored_IDs_non_empty (history : list invocation) (faults : list (option string)) :
  Forall (creates_within non_empty) history →
  map_Forall (λ _ value, has_non_empty_ID value) (World (run history (genesis faults)))
  ∧ Forall writes_non_empty_ID (Writes (run history (genesis faults))).
Proof.
  intros Hhistory.
  destruct (run_invariant non_empty seeds_non_empty history Hhistory _
              (genesis_invariant non_empty faults)) as [Hworld Hwrites].
  split.
  - intros key value Hkey.
    destruct (Hworld _ _ Hkey) as (Hne & account & Hdec & HID).
    exists account. split; [done|]. by rewrite HID.
  - eapply Forall_impl; [exact Hwrites|].
    intros [key value|key]; [|done].
    intros (Hne & account & Hdec & HID).
    exists account. split; [done|]. by rewrite HID.
Qed.

(** The sample history creates "account7" only. *)
Lemma stored_IDs_non_empty_witness :
  map_Forall (λ _ value, has_non_empty_ID value) (World (run sample_history (genesis [])))
  ∧ Forall writes_non_empty_ID (Writes (run sample_history (genesis []))).
Proof.
  apply (stored_IDs_non_empty sample_history []).
  repeat constructor; by vm_compute.
Defined.

(** * Further properties of the contract *)

(** ** ReadAccount *)

Lemma ReadAccount_eq id stub :
  ReadAccount id stub
  = (match (next_fault stub).1 with
     | Some msg => Err (ReadFailedError msg)
     | None => match World stub !! id with
               | None => Err (NotFoundError id)
               | Some data => json_Unmarshal data
               end
     end, served stub).
Proof.
  unfold ReadAccount, bind, or_else, GetState.
  destruct (stub_call_cases (λ stub, (World stub !! id, stub)) stub)
    as [(msg & -> & ->)|[-> ->]]; simpl; [done|].
  rewrite World_served. by destruct (World stub !! id).
Qed.



(** ** UpdateAccount and DeleteAccount *)


Lemma DeleteAccount_available id stub :
  available stub →
  DeleteAccount id stub
  = if not_nil (World stub !! id)
    then (Ok tt, {| World := delete id (World stub);
                    Writes := Del id :: Writes stub;
                    Faults := Faults (served (served stub)) |})
    else (Err (NotFoundError id), served stub).
Proof.
  intros Hav. unfold DeleteAccount, bind at 1.
  rewrite AccountExists_available by done.
  destruct (not_nil (World stub !! id)); [|done]. cbn [negb].
  unfold DelState. rewrite stub_call_available by by apply available_served.
  cbn [fst snd]. by rewrite !World_served, !Writes_served.
Qed.



(** X3.  [DeleteAccount] on a bound key, on a stub that serves its calls,
    succeeds, also when the value does not decode, and removes exactly that
    key; afterwards [AccountExists] answers false, [ReadAccount] fails with
    "the account id does not exist", and a [CreateAccount] for the same id
    with a finite balance succeeds again. *)
Theorem DeleteAccount_removes (stub : ChaincodeStub) (id : string) :
  available stub →
  is_Some (World stub !! id) →
  (DeleteAccount id stub).1 = Ok tt
  ∧ World (DeleteAccount id stub).2 = delete id (World stub)
  ∧ Writes (DeleteAccount id stub).2 = Del id :: Writes stub
  ∧ (AccountExists id (DeleteAccount id stub).2).1 = Ok false
  ∧ (ReadAccount id (DeleteAccount id stub).2).1 = Err (NotFoundError id)
  ∧ ∀ owner balance,
      unsupported balance = false →
      (CreateAccount id owner balance (DeleteAccount id stub).2).1 = Ok tt.
Proof.
  intros Hav [old Hold]. rewrite DeleteAccount_available by done.
  rewrite Hold. cbn [not_nil fst snd].
  set (stub' := {| World := delete id (World stub);
                   Writes := Del id :: Writes stub;
                   Faults := Faults (served (served stub)) |}).
  assert (Hav' : available stub') by (by do 2 apply available_served).
  assert (Hgone : World stub' !! id = None) by apply lookup_delete_eq.
  split; [done|]. split; [done|]. split; [done|]. split; [|split].
  - by rewrite AccountExists_available, Hgone.
  - by rewrite ReadAccount_available, Hgone.
  - intros owner balance Hfinite.
    rewrite CreateAccount_available, Hgone by done.
    unfold json_Marshal. cbn [Balance not_nil]. by rewrite Hfinite.
Qed.

(** The spec's scenario: account3 is deleted from the seeded ledger. *)
Lemma DeleteAccount_removes_witness :
  (DeleteAccount "account3" seeded).1 = Ok tt
  ∧ World (DeleteAccount "account3" seeded).2 = delete "account3" (World seeded)
  ∧ Writes (DeleteAccount "account3" seeded).2 = Del "account3" :: Writes seeded
  ∧ (AccountExists "account3" (DeleteAccount "account3" seeded).2).1 = Ok false
  ∧ (ReadAccount "account3" (DeleteAccount "account3" seeded).2).1
    = Err (NotFoundError "account3")
  ∧ ∀ owner balance,
      unsupported balance = false →
      (CreateAccount "account3" owner balance (DeleteAccount "account3" seeded).2).1
      = Ok tt.
Proof.
  apply (DeleteAccount_removes seeded "account3").
  - by vm_compute.
  - vm_compute. by eexists.
Defined.

(** ** CreateAccount *)



(** ** InitLedger *)

Lemma seeds_finite :
  Forall (λ account, unsupported (Balance account) = false) seed_accounts.
Proof. repeat constructor. Qed.

Lemma store_all_cons account accounts world :
  store_all (account :: accounts) world
  = store_all accounts (<[ID account := Encoded account]> world).
Proof. done. Qed.

Lemma puts_of_cons account accounts :
  puts_of (account :: accounts)
  = puts_of accounts ++ [Put (ID account) (Encoded account)].
Proof. done. Qed.

(** The loop stops at the first [PutState] that fails; the accounts before
    it have been written, in order. *)
Lemma put_accounts_prefix accounts :
  Forall (λ account, unsupported (Balance account) = false) accounts →
  ∀ stub,
    wp (put_accounts accounts)
       (λ r stub',
          ∃ written rest,
            accounts = written ++ rest
            ∧ World stub' = store_all written (World stub)
            ∧ Writes stub' = puts_of written ++ Writes stub
            ∧ match r with
              | Ok _ => rest = []
              | Err e => rest ≠ [] ∧ ∃ msg, e = PutFailedError msg
              end)
       stub.
Proof.
  induction 1 as [|account rest Hfinite _ IH]; intros stub; cbn [put_accounts].
  - apply wp_ret. by exists [], [].
  - wp_run.
    + exists [], (account :: rest). rewrite World_served, Writes_served.
      repeat split; try done. by eexists.
    + match goal with H : json_Marshal _ = Ok _ |- _ =>
        apply json_Marshal_Ok in H as [_ ->] end.
      eapply wp_mono; [apply IH|]. cbv beta.
      intros r stub' (written & rest' & -> & HW & HWr & Hr).
      exists (account :: written), rest'.
      rewrite store_all_cons, puts_of_cons, <- app_assoc.
      rewrite World_put, Writes_put in *. by repeat split.
    + match goal with H : json_Marshal _ = Err _ |- _ =>
        unfold json_Marshal in H; rewrite Hfinite in H; discriminate H end.
Qed.

(** X5.  [InitLedger], on any stub: it never fails in [json.Marshal]; it
    writes the seed accounts in order, each under its ID, and stops at the
    first [PutState] that fails, returning "failed to put to world state: ..."
    and leaving what it wrote before in place; it returns [nil] exactly when
    all six have been written. *)
Theorem InitLedger_writes_a_prefix (stub : ChaincodeStub) :
  ∃ written rest,
    seed_accounts = written ++ rest
    ∧ World (InitLedger stub).2 = store_all written (World stub)
    ∧ Writes (InitLedger stub).2 = puts_of written ++ Writes stub
    ∧ match (InitLedger stub).1 with
      | Ok _ => rest = []
      | Err e => rest ≠ [] ∧ ∃ msg, e = PutFailedError msg
      end.
Proof. apply (put_accounts_prefix seed_accounts seeds_finite stub). Qed.

(** The third [PutState] fails: two seeds are stored, the call reports the
    failure, and account3 is missing. *)
Lemma InitLedger_writes_a_prefix_witness :
  (InitLedger (genesis [None; None; Some "EOF"])).1
  = Err (Errorf "failed to put to world state: EOF")
  ∧ World (InitLedger (genesis [None; None; Some "EOF"])).2
    = store_all (take 2 seed_accounts) ∅
  ∧ ∃ written rest,
      seed_accounts = written ++ rest
      ∧ World (InitLedger (genesis [None; None; Some "EOF"])).2
        = store_all written ∅.
Proof.
  split; [by vm_compute|]. split; [by vm_compute|].
  destruct (InitLedger_writes_a_prefix (genesis [None; None; Some "EOF"]))
    as (written & rest & Hsplit & Hworld & _).
  by exists written, rest.
Defined.

Lemma store_all_other accounts :
  ∀ world key,
    key ∉ ID <$> accounts → store_all accounts world !! key = world !! key.
Proof.
  induction accounts as [|account rest IH]; intros world key Hkey; [done|].
  rewrite fmap_cons, not_elem_of_cons in Hkey. destruct Hkey as [Hne Hrest].
  rewrite store_all_cons, IH by done. by rewrite lookup_insert_ne.
Qed.

Lemma store_all_member accounts :
  NoDup (ID <$> accounts) →
  ∀ world account,
    account ∈ accounts →
    store_all accounts world !! ID account = Some (Encoded account).
Proof.
  induction accounts as [|first rest IH]; intros Hnodup world account Hin.
  - by apply elem_of_nil in Hin.
  - rewrite fmap_cons in Hnodup. apply NoDup_cons in Hnodup as [Hfresh Hnodup].
    rewrite store_all_cons. apply elem_of_cons in Hin as [->|Hin].
    + rewrite store_all_other by done. by rewrite lookup_insert_eq.
    + by apply IH.
Qed.

Lemma put_accounts_cons account rest stub :
  unsupported (Balance account) = false →
  available stub →
  put_accounts (account :: rest) stub
  = put_accounts rest (put (ID account) (Encoded account) (served stub)).
Proof.
  intros Hfinite Hav. cbn [put_accounts].
  unfold bind at 1, lift at 1, json_Marshal.
  rewrite Hfinite. unfold bind at 1, or_else.
  by rewrite PutState_available.
Qed.

Lemma put_accounts_available accounts :
  Forall (λ account, unsupported (Balance account) = false) accounts →
  ∀ stub,
    available stub →
    (put_accounts accounts stub).1 = Ok tt
    ∧ World (put_accounts accounts stub).2 = store_all accounts (World stub)
    ∧ available (put_accounts accounts stub).2.
Proof.
  induction 1 as [|account rest Hfinite _ IH]; intros stub Hav; [done|].
  rewrite put_accounts_cons by done.
  destruct (IH (put (ID account) (Encoded account) (served stub)))
    as (Hok & Hworld & Hav'); [by apply available_put, available_served|].
  rewrite Hok, Hworld, World_put. by rewrite store_all_cons.
Qed.

Lemma seed_IDs_distinct : NoDup (ID <$> seed_accounts).
Proof. apply (bool_decide_unpack _). by vm_compute. Qed.

(** X6.  [InitLedger] on a stub that serves its calls succeeds whatever the
    ledger holds: afterwards every seed account is stored under its ID,
    replacing any record of that key, every other key is as it was, and a
    second [InitLedger] succeeds and changes nothing. *)
Theorem InitLedger_resets (stub : ChaincodeStub) :
  available stub →
  (InitLedger stub).1 = Ok tt
  ∧ (∀ account, account ∈ seed_accounts →
       holds (InitLedger stub).2 (ID account) account)
  ∧ (∀ key, key ∉ ID <$> seed_accounts →
       World (InitLedger stub).2 !! key = World stub !! key)
  ∧ (InitLedger (InitLedger stub).2).1 = Ok tt
  ∧ World (InitLedger (InitLedger stub).2).2 = World (InitLedger stub).2.
Proof.
  intros Hav.
  destruct (put_accounts_available seed_accounts seeds_finite stub Hav)
    as (Hok & Hworld & Hav').
  destruct (put_accounts_available seed_accounts seeds_finite _ Hav')
    as (Hok' & Hworld' & _).
  change (put_accounts seed_accounts) with InitLedger in *.
  assert (Hmember : ∀ world account, account ∈ seed_accounts →
            store_all seed_accounts world !! ID account = Some (Encoded account))
    by (intros; by apply (store_all_member _ seed_IDs_distinct)).
  split; [done|]. split; [|split; [|split; [done|]]].
  - intros account Hin. unfold holds. rewrite Hworld. by apply Hmember.
  - intros key Hkey. rewrite Hworld. by apply store_all_other.
  - rewrite Hworld', Hworld. apply map_eq. intros key.
    destruct (decide (key ∈ ID <$> seed_accounts)) as [Hin|Hout].
    + apply list_elem_of_fmap in Hin as (account & -> & Hin).
      by rewrite !Hmember.
    + by rewrite store_all_other.
Qed.

(** After a transfer and an update on the seeded ledger, [InitLedger] puts
    account1 back to 1000 and keeps account7. *)
Lemma InitLedger_resets_witness :
  (InitLedger (run sample_history (genesis []))).1 = Ok tt
  ∧ holds (InitLedger (run sample_history (genesis []))).2 "account1"
      (mkAccount "account1" "Tomoko" 1000%float)
  ∧ World (InitLedger (run sample_history (genesis []))).2 !! "account7"
    = World (run sample_history (genesis [])) !! "account7".
Proof.
  destruct (InitLedger_resets (run sample_history (genesis [])))
    as (Hok & Hseeds & Hothers & _); [by vm_compute|].
  split; [exact Hok|]. split.
  - apply (Hseeds (mkAccount "account1" "Tomoko" 1000%float)).
    apply list_elem_of_here.
  - apply Hothers. apply (bool_decide_unpack _). by vm_compute.
Defined.

(** ** TransferFunds: accounts that cannot be read *)

(** X7.  [TransferFunds] on a stub that serves its calls reads the source
    first and the destination second, before it looks at the amount: an
    unbound [fromID] gives "the account fromID does not exist" whatever [toID]
    is, a source value that does not decode gives the decoder's error, and
    with a readable source an unbound [toID] gives "the account toID does not
    exist" even when the funds would not suffice.  Nothing is written in any
    of these cases. *)
Theorem TransferFunds_unreadable_account
  (stub : ChaincodeStub) (fromID toID : string) (amount : float) :
  available stub →
  (World stub !! fromID = None →
     (TransferFunds fromID toID amount stub).1 = Err (NotFoundError fromID))
  ∧ (∀ msg, World stub !! fromID = Some (Malformed msg) →
       (TransferFunds fromID toID amount stub).1 = Err (UnmarshalError msg))
  ∧ (∀ fromAccount, holds stub fromID fromAccount → World stub !! toID = None →
       (TransferFunds fromID toID amount stub).1 = Err (NotFoundError toID))
  ∧ ((World stub !! fromID = None ∨ World stub !! toID = None) →
       World (TransferFunds fromID toID amount stub).2 = World stub
       ∧ Writes (TransferFunds fromID toID amount stub).2 = Writes stub).
Proof.
  intros Hav.
  assert (Hav' : available (served stub)) by by apply available_served.
  unfold TransferFunds, bind, holds.
  rewrite ReadAccount_available by done.
  destruct (World stub !! fromID) as [[fromAccount|msg]|] eqn:Hfrom;
    cbn [json_Unmarshal];
    [ rewrite ReadAccount_available, World_served by done;
      destruct (World stub !! toID) as [[toAccount|msg]|] eqn:Hto;
      cbn [json_Unmarshal] | | ].
  all: repeat split; intros;
    repeat match goal with H : _ ∨ _ |- _ => destruct H end;
    simplify_eq; cbn [fst snd]; rewrite ?World_served, ?Writes_served; done.
Qed.

(** Transfers from and to accounts the probe ledger does not hold. *)
Lemma TransferFunds_unreadable_account_witness :
  (TransferFunds "account9" "account8" 1%float probe_stub).1
  = Err (Errorf "the account account9 does not exist")
  ∧ (TransferFunds "broken" "account1" 1%float probe_stub).1
    = Err (UnmarshalError "unexpected end of JSON input")
  ∧ (TransferFunds "account1" "account9" 99999%float probe_stub).1
    = Err (Errorf "the account account9 does not exist").
Proof.
  split; [|split].
  - apply (TransferFunds_unreadable_account probe_stub "account9" "account8" 1%float);
      by vm_compute.
  - apply (TransferFunds_unreadable_account probe_stub "broken" "account1" 1%float);
      by vm_compute.
  - destruct (TransferFunds_unreadable_account probe_stub "account1" "account9"
                99999%float) as (_ & _ & Hto & _); [by vm_compute|].
    apply (Hto (mkAccount "account1" "Tomoko" 1000%float)); by vm_compute.
Defined.

(** ** TransferFunds: amounts that are not numbers *)

Lemma Prim2SF_nan f : is_nan f = true → Prim2SF f = S754_nan.
Proof. intros Hnan. unfold Prim2SF. by rewrite Hnan. Qed.

Lemma is_nan_Prim2SF f : Prim2SF f = S754_nan → is_nan f = true.
Proof.
  unfold Prim2SF. destruct (is_nan f); [done|].
  destruct (is_zero f); [done|]. destruct (is_infinity f); [done|].
  destruct (Z.frexp f) as [r exp].
  destruct (shr_fexp _ _ _ _ _) as [shr e'].
  by destruct (shr_m shr).
Qed.

Lemma sub_nan (x y : float) : is_nan y = true → is_nan (x - y)%float = true.
Proof.
  intros Hnan. apply is_nan_Prim2SF. rewrite sub_spec, (Prim2SF_nan y Hnan).
  unfold SF64sub, SFsub. by destruct (Prim2SF x).
Qed.

Lemma ltb_nan (x y : float) : is_nan y = true → (x <? y)%float = false.
Proof.
  intros Hnan. rewrite ltb_spec, (Prim2SF_nan y Hnan).
  unfold SFltb, SFcompare. by destruct (Prim2SF x).
Qed.

(** X8.  A NaN amount moves nothing.  With accounts stored under both keys,
    on a stub that serves its calls, [TransferFunds] with an amount that is
    NaN passes the funds check (no balance is below NaN), computes a NaN
    source balance, and fails in [json.Marshal] with "unsupported value: NaN"
    before any write. *)
Theorem TransferFunds_NaN_amount
  (stub : ChaincodeStub) (fromID toID : string) (amount : float)
  (fromAccount toAccount : Account) :
  available stub →
  holds stub fromID fromAccount →
  holds stub toID toAccount →
  is_nan amount = true →
  (TransferFunds fromID toID amount stub).1 = Err (UnsupportedValueError "NaN")
  ∧ World (TransferFunds fromID toID amount stub).2 = World stub
  ∧ Writes (TransferFunds fromID toID amount stub).2 = Writes stub.
Proof.
  intros Hav Hfrom Hto Hnan.
  rewrite (TransferFunds_available _ _ _ fromAccount toAccount) by done.
  rewrite (ltb_nan _ _ Hnan).
  unfold json_Marshal, unsupported, FormatFloat_unsupported. cbn [Balance set_Balance].
  rewrite (sub_nan _ _ Hnan). cbn [orb fst snd].
  by rewrite !World_served, !Writes_served.
Qed.

(** NaN from account1 to account2 on the seeded ledger. *)
Lemma TransferFunds_NaN_amount_witness :
  (TransferFunds "account1" "account2" nan seeded).1
  = Err (UnsupportedValueError "NaN")
  ∧ World (TransferFunds "account1" "account2" nan seeded).2 = World seeded
  ∧ Writes (TransferFunds "account1" "account2" nan seeded).2 = Writes seeded.
Proof.
  apply (TransferFunds_NaN_amount seeded "account1" "account2" nan
           (mkAccount "account1" "Tomoko" 1000%float)
           (mkAccount "account2" "Brad" 2000%float)); by vm_compute.
Defined.

(** ** TransferFunds: the two writes *)

(** X9.  [TransferFunds] writes the debited source before it encodes the
    credited destination.  On a stub that serves its calls, for two distinct
    stored accounts and an amount that passes the funds check, if the new
    source balance is finite and the new destination balance is not, the call
    returns the encoder's error after one accepted [PutState]: the source
    record is stored debited and the destination record is as it was. *)
Theorem TransferFunds_debit_without_credit
  (stub : ChaincodeStub) (fromID toID : string) (amount : float)
  (fromAccount toAccount : Account) :
  available stub →
  fromID ≠ toID →
  holds stub fromID fromAccount →
  holds stub toID toAccount →
  (Balance fromAccount <? amount)%float = false →
  unsupported (Balance fromAccount - amount)%float = false →
  unsupported (Balance toAccount + amount)%float = true →
  (TransferFunds fromID toID amount stub).1
  = Err (UnsupportedValueError
           (FormatFloat_unsupported (Balance toAccount + amount)%float))
  ∧ Writes (TransferFunds fromID toID amount stub).2
    = Put fromID (Encoded (set_Balance fromAccount (Balance fromAccount - amount)%float))
      :: Writes stub
  ∧ holds (TransferFunds fromID toID amount stub).2 fromID
      (set_Balance fromAccount (Balance fromAccount - amount)%float)
  ∧ holds (TransferFunds fromID toID amount stub).2 toID toAccount.
Proof.
  intros Hav Hne Hfrom Hto Hlt Hsub Hadd.
  rewrite (TransferFunds_available _ _ _ fromAccount toAccount) by done.
  rewrite Hlt. unfold json_Marshal. cbn [Balance set_Balance].
  rewrite Hsub, Hadd. cbn [fst snd]. unfold holds.
  rewrite Writes_put, World_put, !World_served, !Writes_served.
  split; [done|]. split; [done|]. split.
  - by rewrite lookup_insert_eq.
  - by rewrite lookup_insert_ne.
Qed.

(** Both accounts hold [MaxFloat64]; moving [MaxFloat64] empties "a" and
    cannot be credited to "b". *)
Lemma TransferFunds_debit_without_credit_witness :
  (TransferFunds "a" "b" MaxFloat64 credit_overflow_stub).1
  = Err (UnsupportedValueError "+Inf")
  ∧ holds (TransferFunds "a" "b" MaxFloat64 credit_overflow_stub).2 "a"
      (mkAccount "a" "x" 0%float)
  ∧ holds (TransferFunds "a" "b" MaxFloat64 credit_overflow_stub).2 "b"
      (mkAccount "b" "y" MaxFloat64).
Proof.
  destruct (TransferFunds_debit_without_credit credit_overflow_stub "a" "b" MaxFloat64
              (mkAccount "a" "x" MaxFloat64) (mkAccount "b" "y" MaxFloat64))
    as (Herr & _ & Hfrom & Hto).
  - by vm_compute.
  - done.
  - by vm_compute.
  - by vm_compute.
  - by vm_compute.
  - by vm_compute.
  - by vm_compute.
  - split; [exact Herr|]. split; [exact Hfrom|exact Hto].
Defined.

(** What [TransferFunds] has written when it returns, on any stub. *)
Lemma TransferFunds_writes_wp fromID toID amount stub :
  wp (TransferFunds fromID toID amount)
     (λ r stub',
        (is_Ok r = false ∧ World stub' = World stub ∧ Writes stub' = Writes stub)
        ∨ (∃ fromAccount b,
              is_Ok r = false
              ∧ holds stub fromID fromAccount
              ∧ World stub'
                = <[fromID := Encoded (set_Balance fromAccount b)]> (World stub)
              ∧ Writes stub'
                = Put fromID (Encoded (set_Balance fromAccount b)) :: Writes stub)
        ∨ (∃ fromAccount toAccount b b',
              r = Ok tt
              ∧ holds stub fromID fromAccount ∧ holds stub toID toAccount
              ∧ World stub'
                = <[toID := Encoded (set_Balance toAccount b')]>
                    (<[fromID := Encoded (set_Balance fromAccount b)]> (World stub))
              ∧ Writes stub'
                = Put toID (Encoded (set_Balance toAccount b'))
                  :: Put fromID (Encoded (set_Balance fromAccount b)) :: Writes stub))
     stub.
Proof.
  unfold TransferFunds, ReadAccount. wp_run.
  all: repeat match goal with
         | H : json_Unmarshal _ = Ok _ |- _ => apply json_Unmarshal_Ok in H
         | H : json_Marshal _ = Ok _ |- _ => apply json_Marshal_Ok in H as [_ ?]
         end; subst.
  all: rewrite ?World_served, ?Writes_served, ?World_put, ?Writes_put,
         ?World_served, ?Writes_served in *.
  all: try (left; done).
  all: try (right; left; eexists _, _; done).
  right; right. by eexists _, _, _, _.
Qed.

(** X10.  On any stub, [TransferFunds] makes no write, or one [PutState]
    under [fromID], or that one followed by one [PutState] under [toID]; it
    returns [nil] exactly when it has made both. *)
Theorem TransferFunds_write_shapes
  (stub : ChaincodeStub) (fromID toID : string) (amount : float) :
  ∃ issued,
    Writes (TransferFunds fromID toID amount stub).2 = issued ++ Writes stub
    ∧ (issued = []
       ∨ (∃ value, issued = [Put fromID value])
       ∨ (∃ value value', issued = [Put toID value'; Put fromID value]))
    ∧ ((TransferFunds fromID toID amount stub).1 = Ok tt ↔ length issued = 2).
Proof.
  destruct (TransferFunds_writes_wp fromID toID amount stub)
    as [(Hr & _ & HW)
       |[(fromAccount & b & Hr & _ & _ & HW)
        |(fromAccount & toAccount & b & b' & Hr & _ & _ & _ & HW)]];
    rewrite HW.
  - exists []. split; [done|]. split; [by left|].
    destruct (TransferFunds fromID toID amount stub).1; by split.
  - eexists [_]. split; [done|]. split; [right; left; by eexists|].
    destruct (TransferFunds fromID toID amount stub).1; by split.
  - eexists [_; _]. split; [done|]. split; [right; right; by eexists _, _|].
    by rewrite Hr.
Qed.

(** X11.  [TransferFunds] changes balances only.  On any stub, whether it
    succeeds or fails, the keys of the world state afterwards are the keys
    before, and an account stored before is stored afterwards under the same
    key with the same ID and the same owner. *)
Theorem TransferFunds_changes_balances_only
  (stub : ChaincodeStub) (fromID toID : string) (amount : float) :
  dom (World (TransferFunds fromID toID amount stub).2) = dom (World stub)
  ∧ ∀ key account,
      holds stub key account →
      ∃ balance,
        holds (TransferFunds fromID toID amount stub).2 key
          (set_Balance account balance).
Proof.
  assert (Hsame : ∀ account, set_Balance account (Balance account) = account)
    by by intros [].
  unfold holds.
  destruct (TransferFunds_writes_wp fromID toID amount stub)
    as [(_ & HW & _)
       |[(fromAccount & b & _ & Hfrom & HW & _)
        |(fromAccount & toAccount & b & b' & _ & Hfrom & Hto & HW & _)]];
    rewrite HW; unfold holds in *.
  - split; [done|]. intros key account Hkey.
    exists (Balance account). by rewrite Hsame.
  - split; [by apply dom_insert_lookup_L|]. intros key account Hkey.
    destruct (decide (key = fromID)) as [->|Hne].
    + exists b. rewrite lookup_insert_eq. by simplify_eq.
    + exists (Balance account). by rewrite lookup_insert_ne, Hsame.
  - split.
    + rewrite !dom_insert_lookup_L; [done..|].
      rewrite lookup_insert. by case_decide.
    + intros key account Hkey.
      destruct (decide (key = toID)) as [->|Hne].
      * exists b'. rewrite lookup_insert_eq. by simplify_eq.
      * rewrite lookup_insert_ne by done.
        destruct (decide (key = fromID)) as [->|Hne'].
        -- exists b. rewrite lookup_insert_eq. by simplify_eq.
        -- exists (Balance account). by rewrite lookup_insert_ne, Hsame.
Qed.

(** The transfer of 300 on the seeded ledger keeps the six keys and the
    owner of account2. *)
Lemma TransferFunds_changes_balances_only_witness :
  dom (World (TransferFunds "account1" "account2" 300%float seeded).2)
  = dom (World seeded)
  ∧ ∃ balance,
      holds (TransferFunds "account1" "account2" 300%float seeded).2 "account2"
        (mkAccount "account2" "Brad" balance).
Proof.
  destruct (TransferFunds_changes_balances_only seeded "account1" "account2" 300%float)
    as [Hdom Hkeep].
  split; [exact Hdom|].
  apply (Hkeep "account2" (mkAccount "account2" "Brad" 2000%float)).
  by vm_compute.
Defined.

(** ** GetAllAccounts reads only *)

Lemma collect_reads_only resultsIterator :
  ∀ accounts stub,
    wp (collect resultsIterator accounts)
       (λ _ stub', World stub' = World stub ∧ Writes stub' = Writes stub)
       stub.
Proof.
  induction resultsIterator as [|entry rest IH]; intros accounts stub;
    cbn [collect].
  - by apply wp_ret.
  - wp_run; try by rewrite World_served, Writes_served.
    eapply wp_mono; [apply IH|]. cbv beta.
    intros _ stub'. by rewrite World_served, Writes_served.
Qed.

(** X12.  [GetAllAccounts] never writes: on any stub, whatever it returns,
    the world state and the write log are as they were.  On an empty world
    state, served by the stub, it returns an empty list and no error. *)
Theorem GetAllAccounts_reads_only (stub : ChaincodeStub) :
  World (GetAllAccounts stub).2 = World stub
  ∧ Writes (GetAllAccounts stub).2 = Writes stub
  ∧ (available stub → World stub = ∅ → (GetAllAccounts stub).1 = Ok []).
Proof.
  split; [|split].
  - change (wp GetAllAccounts (λ _ stub', World stub' = World stub) stub).
    unfold GetAllAccounts. wp_run; [by rewrite World_served|].
    eapply wp_mono; [apply collect_reads_only|]. cbv beta.
    intros _ stub' [-> _]. by rewrite World_served.
  - change (wp GetAllAccounts (λ _ stub', Writes stub' = Writes stub) stub).
    unfold GetAllAccounts. wp_run; [by rewrite Writes_served|].
    eapply wp_mono; [apply collect_reads_only|]. cbv beta.
    intros _ stub' [_ ->]. by rewrite Writes_served.
  - intros Hav Hempty. unfold GetAllAccounts, bind.
    rewrite GetStateByRange_all by done.
    by rewrite Hempty, map_to_list_empty.
Qed.

(** A listing of a fresh ledger, and of the seeded one. *)
Lemma GetAllAccounts_reads_only_witness :
  (GetAllAccounts (genesis [])).1 = Ok []
  ∧ World (GetAllAccounts seeded).2 = World seeded
  ∧ Writes (GetAllAccounts seeded).2 = Writes seeded.
Proof.
  destruct (GetAllAccounts_reads_only (genesis [])) as (_ & _ & Hempty).
  destruct (GetAllAccounts_reads_only seeded) as (Hworld & Hwrites & _).
  split; [|by split]. apply Hempty; by vm_compute.
Defined.

(** ** Stored balances are finite *)

Lemma finite_balances_insert world key account :
  finite_balances world →
  unsupported (Balance account) = false →
  finite_balances (<[key := Encoded account]> world).
Proof.
  intros Hworld Hfinite key' value. rewrite lookup_insert.
  case_decide; [|by apply Hworld]. intros [= <-]. by exists account.
Qed.

Lemma finite_balances_delete world key :
  finite_balances world → finite_balances (delete key world).
Proof.
  intros Hworld key' value [_ Hkey]%lookup_delete_Some. by eapply Hworld.
Qed.

(** Close an invariant goal after symbolic execution: the world state is
    unchanged, or grew by values [json.Marshal] produced. *)
Ltac finite_step :=
  repeat match goal with
         | H : json_Marshal _ = Ok _ |- _ => apply json_Marshal_Ok in H as [? ->]
         end;
  rewrite ?World_served, ?World_put, ?World_served;
  repeat first [ assumption | apply finite_balances_insert ].

Lemma put_accounts_finite accounts :
  ∀ stub,
    finite_balances (World stub) →
    wp (put_accounts accounts) (λ _ stub', finite_balances (World stub')) stub.
Proof.
  induction accounts as [|account rest IH]; intros stub Hworld; cbn [put_accounts].
  - by apply wp_ret.
  - wp_run; try by finite_step.
    apply IH. by finite_step.
Qed.

Lemma invoke_finite i stub :
  finite_balances (World stub) → finite_balances (World (invoke i stub).2).
Proof.
  intros Hworld.
  change (wp (invoke i) (λ _ stub', finite_balances (World stub')) stub).
  destruct i; cbn [invoke].
  - by apply put_accounts_finite.
  - unfold CreateAccount, AccountExists. wp_run; by finite_step.
  - unfold UpdateAccount, AccountExists. wp_run; by finite_step.
  - unfold DeleteAccount, AccountExists.
    wp_run; try by finite_step.
    simpl. rewrite World_served. by apply finite_balances_delete.
  - unfold TransferFunds, ReadAccount. wp_run; by finite_step.
Qed.

Lemma run_finite history :
  ∀ stub, finite_balances (World stub) → finite_balances (World (run history stub)).
Proof.
  induction history as [|i rest IH]; intros stub Hworld; [done|].
  simpl. by apply IH, invoke_finite.
Qed.

(** X13.  No NaN and no infinity is ever stored.  After any history of
    invocations on a fresh ledger, whatever the stub's failures, every value
    of the world state decodes to an Account with a finite balance; so an
    Account that [ReadAccount] returns or [GetAllAccounts] lists there has a
    finite balance. *)
Theorem stored_balances_finite (history : list invocation) (faults : list (option string)) :
  finite_balances (World (run history (genesis faults)))
  ∧ (∀ id account,
       (ReadAccount id (run history (genesis faults))).1 = Ok account →
       unsupported (Balance account) = false)
  ∧ (∀ accounts account,
       (GetAllAccounts (run history (genesis faults))).1 = Ok accounts →
       account ∈ accounts →
       unsupported (Balance account) = false).
Proof.
  assert (Hfinite : finite_balances (World (run history (genesis faults)))).
  { apply run_finite. intros key value Hkey. by simpl in Hkey. }
  split; [done|]. split.
  - intros id account. rewrite ReadAccount_eq. cbn [fst].
    destruct (next_fault _).1 as [msg|]; [done|].
    destruct (World _ !! id) as [data|] eqn:Hid; [|done].
    intros Hdata. destruct (Hfinite _ _ Hid) as (account' & Hdata' & Hb).
    rewrite Hdata in Hdata'. by simplify_eq.
  - intros accounts account Hrun Hin.
    pose proof (collect_complete) as Hcollect.
    revert Hrun.
    change (wp GetAllAccounts
              (λ r _, r = Ok accounts → unsupported (Balance account) = false)
              (run history (genesis faults))).
    unfold GetAllAccounts. wp_run; [done|].
    eapply wp_mono; [apply Hcollect|]. cbv beta.
    intros r _ Hall Hr. destruct (Hall accounts Hr) as (decoded & -> & Hdecoded).
    rewrite app_nil_l in Hin.
    apply list_elem_of_lookup in Hin as [i Hi].
    destruct (Forall2_lookup_l _ _ _ _ _ Hdecoded Hi) as (entry & Hentry & Hdec).
    apply list_elem_of_lookup_2 in Hentry.
    apply list_elem_of_fmap in Hentry as ([key value] & -> & Hkv).
    apply list_elem_of_filter in Hkv as [_ Hkv].
    apply elem_of_map_to_list in Hkv.
    destruct (Hfinite _ _ Hkv) as (account' & Hdata' & Hb).
    cbn [Value] in Hdec. simpl in Hdec, Hdata'.
    rewrite Hdec in Hdata'. by simplify_eq.
Qed.

(** After the sample history every stored balance is finite, and so is the
    balance read for account2. *)
Lemma stored_balances_finite_witness :
  finite_balances (World (run sample_history (genesis [])))
  ∧ unsupported (Balance (mkAccount "account2" "Bradley" 50%float)) = false.
Proof.
  destruct (stored_balances_finite sample_history []) as (Hworld & Hread & _).
  split; [exact Hworld|].
  apply (Hread "account2"). by vm_compute.
Defined.

(** ** When a transfer succeeds *)

(** X14.  On a stub that serves its calls, [TransferFunds] returns [nil]
    exactly when both keys hold accounts that decode, the source balance is
    not below the amount, and both new balances are finite; the two keys may
    be the same. *)
Theorem TransferFunds_succeeds_iff
  (stub : ChaincodeStub) (fromID toID : string) (amount : float) :
  available stub →
  (TransferFunds fromID toID amount stub).1 = Ok tt
  ↔ ∃ fromAccount toAccount,
      holds stub fromID fromAccount
      ∧ holds stub toID toAccount
      ∧ (Balance fromAccount <? amount)%float = false
      ∧ unsupported (Balance fromAccount - amount)%float = false
      ∧ unsupported (Balance toAccount + amount)%float = false.
Proof.
  intros Hav. split.
  - intros Hok.
    destruct (TransferFunds_success_wp fromID toID amount stub Hok)
      as (fromAccount & toAccount & Hfrom & Hto & Hlt & Hsub & Hadd & _).
    by exists fromAccount, toAccount.
  - intros (fromAccount & toAccount & Hfrom & Hto & Hlt & Hsub & Hadd).
    rewrite (TransferFunds_available _ _ _ fromAccount toAccount) by done.
    rewrite Hlt. unfold json_Marshal. cbn [Balance set_Balance].
    by rewrite Hsub, Hadd.
Qed.

(** The transfer of 300 on the seeded ledger succeeds; the transfer of 99999
    does not. *)
Lemma TransferFunds_succeeds_iff_witness :
  (TransferFunds "account1" "account2" 300%float seeded).1 = Ok tt
  ∧ ¬ (∃ fromAccount toAccount,
          holds seeded "account1" fromAccount
          ∧ holds seeded "account2" toAccount
          ∧ (Balance fromAccount <? 99999)%float = false
          ∧ unsupported (Balance fromAccount - 99999)%float = false
          ∧ unsupported (Balance toAccount + 99999)%float = false).
Proof.
  split.
  - apply (TransferFunds_succeeds_iff seeded "account1" "account2" 300%float);
      [by vm_compute|].
    exists (mkAccount "account1" "Tomoko" 1000%float),
           (mkAccount "account2" "Brad" 2000%float).
    repeat split; by vm_compute.
  - intros Hsome.
    apply (TransferFunds_succeeds_iff seeded "account1" "account2" 99999%float)
      in Hsome; [|by vm_compute].
    vm_compute in Hsome. discriminate Hsome.
Defined.

(** ** The two notions of existence *)

(** X15.  [ReadAccount] and [AccountExists] agree on what is missing: on any
    stub, [ReadAccount id] fails with "the account id does not exist" exactly
    when [AccountExists id] answers false, and whenever [ReadAccount id]
    returns an Account, [AccountExists id] answers true. *)
Theorem ReadAccount_agrees_with_AccountExists (id : string) (stub : ChaincodeStub) :
  ((ReadAccount id stub).1 = Err (NotFoundError id)
   ↔ (AccountExists id stub).1 = Ok false)
  ∧ (∀ account, (ReadAccount id stub).1 = Ok account →
                (AccountExists id stub).1 = Ok true).
Proof.
  rewrite ReadAccount_eq, AccountExists_eq. cbn [fst].
  destruct (next_fault stub).1 as [msg|].
  - split; [|done]. split; [|done].
    unfold ReadFailedError, NotFoundError. by intros [=].
  - destruct (World stub !! id) as [[account|msg]|]; cbn [json_Unmarshal not_nil];
      split; try done; split; done.
Qed.
